(** * Argus: shallow embedding of the shell policy, the cipher and vault,
    the SQLite memory store and the agent turn loop, with their properties. *)

From Stdlib Require Import ZArith Lia Bool Ascii String List Sorted Permutation.
From stdpp Require Import base list gmap strings pretty.
Import ListNotations.

Open Scope Z_scope.

(** Rust's [Result<T, E>]. *)
Inductive result (A E : Type) : Type :=
| Ok (a : A)
| Err (e : E).
Arguments Ok {A E} a.
Arguments Err {A E} e.

(** A Rust [&str] seen as its sequence of Unicode scalar values. *)
Definition ustr := list Z.

(** ASCII literals as scalar-value sequences (for the concrete inputs). *)
Fixpoint u (s : string) : ustr :=
  match s with
  | EmptyString => []
  | String c s' => Z.of_nat (nat_of_ascii c) :: u s'
  end.

Fixpoint ustr_eqb (a b : ustr) : bool :=
  match a, b with
  | [], [] => true
  | x :: a', y :: b' => Z.eqb x y && ustr_eqb a' b'
  | _, _ => false
  end.

Lemma ustr_eqb_eq (a b : ustr) : ustr_eqb a b = true <-> a = b.
Proof.
  revert b; induction a as [|x a IH]; intros [|y b]; simpl; split; intros H;
    try discriminate; try reflexivity.
  - apply andb_true_iff in H as [H1 H2]. apply Z.eqb_eq in H1.
    apply IH in H2. subst; reflexivity.
  - injection H as -> ->. apply andb_true_iff; split.
    + apply Z.eqb_refl.
    + apply IH; reflexivity.
Qed.

(** [needle] is a prefix of [hay]. *)
Fixpoint starts_with (needle hay : ustr) : bool :=
  match needle, hay with
  | [], _ => true
  | n :: needle', h :: hay' => Z.eqb n h && starts_with needle' hay'
  | _ :: _, [] => false
  end.

(** [str::contains] with a string pattern. *)
Fixpoint contains (hay needle : ustr) : bool :=
  starts_with needle hay ||
  match hay with
  | [] => false
  | _ :: hay' => contains hay' needle
  end.

(** [str::split] with a character predicate: the pieces between
    separators, empty ones included (n separators give n+1 pieces). *)
Fixpoint split_on (sep : Z -> bool) (s : ustr) : list ustr :=
  match s with
  | [] => [[]]
  | c :: s' =>
      if sep c then [] :: split_on sep s'
      else match split_on sep s' with
           | p :: ps => (c :: p) :: ps
           | [] => [[c]]
           end
  end.

(** * Shell policy (crates/argus-core/src/shell.rs) *)
Module Shell.

(** [char::is_whitespace]: the Unicode White_Space property. *)
Definition is_whitespace (c : Z) : bool :=
  ((9 <=? c) && (c <=? 13)) || (c =? 32) || (c =? 133) || (c =? 160)
  || (c =? 5760) || ((8192 <=? c) && (c <=? 8202)) || (c =? 8232)
  || (c =? 8233) || (c =? 8239) || (c =? 8287) || (c =? 12288).

Fixpoint trim_start (s : ustr) : ustr :=
  match s with
  | c :: s' => if is_whitespace c then trim_start s' else s
  | [] => []
  end.

(** [str::trim]. *)
Definition trim (s : ustr) : ustr := rev (trim_start (rev (trim_start s))).

(** [s.split_whitespace().next().unwrap_or("")]. *)
Definition first_token (s : ustr) : ustr :=
  match List.filter (fun p => negb (ustr_eqb p [])) (split_on is_whitespace s) with
  | t :: _ => t
  | [] => []
  end.

Record ShellPolicy := mkShellPolicy {
  allowed_prefixes : list ustr;  (* a HashSet<String>: only membership is used *)
  max_output_bytes : nat;
  timeout_secs : nat
}.

Inductive ShellDenied :=
| Empty
| NotAllowed (cmd : ustr)
| SubshellBlocked
| DangerousRedirect.

Definition default_names : list string :=
  ["ls"; "cat"; "head"; "tail"; "wc"; "find"; "grep"; "rg";
   "echo"; "date"; "pwd"; "whoami"; "uname"; "which"; "env";
   "file"; "stat"; "du"; "df"; "tree"; "less"; "sort"; "uniq";
   "cut"; "awk"; "sed"; "tr"; "diff"; "hexdump"; "xxd";
   "curl"; "wget";
   "git"; "cargo"; "npm"; "node"; "python3"; "python"; "pip";
   "rustc"; "rustup"; "make"; "cmake";
   "docker"; "kubectl";
   "jq"; "yq";
   "tar"; "zip"; "unzip"; "gzip"; "gunzip";
   "mkdir"; "cp"; "mv"; "touch"; "tee";
   "chmod"; "chown"]%string.

(** [ShellPolicy::default()]. *)
Definition default_policy : ShellPolicy :=
  mkShellPolicy (map u default_names) (64 * 1024) 30.

(** [ShellPolicy::empty()]. *)
Definition empty_policy : ShellPolicy := mkShellPolicy [] (64 * 1024) 30.

(** [cmd.rsplit('/').next().unwrap_or(cmd)]: the last '/'-separated piece. *)
Definition basename (cmd : ustr) : ustr := List.last (split_on (Z.eqb 47) cmd) cmd.

(** [ShellPolicy::is_allowed]. *)
Definition is_allowed (p : ShellPolicy) (cmd : ustr) : bool :=
  existsb (ustr_eqb (basename cmd)) (allowed_prefixes p).

(** The loop over the pipe-separated segments. *)
Fixpoint check_pipe_segments (p : ShellPolicy) (segs : list ustr)
  : result unit ShellDenied :=
  match segs with
  | [] => Ok tt
  | segment :: rest =>
      let seg_cmd := first_token (trim segment) in
      if negb (is_allowed p seg_cmd) then Err (NotAllowed seg_cmd)
      else check_pipe_segments p rest
  end.

(** The loop over the '&'/';'-separated segments. *)
Fixpoint check_chain_segments (p : ShellPolicy) (segs : list ustr)
  : result unit ShellDenied :=
  match segs with
  | [] => Ok tt
  | segment :: rest =>
      let seg := trim segment in
      if ustr_eqb seg [] then check_chain_segments p rest
      else
        let seg_cmd := first_token seg in
        if negb (ustr_eqb seg_cmd []) && negb (is_allowed p seg_cmd)
        then Err (NotAllowed seg_cmd)
        else check_chain_segments p rest
  end.

(** [ShellPolicy::check]. *)
Definition check (p : ShellPolicy) (command : ustr) : result unit ShellDenied :=
  let trimmed := trim command in
  if ustr_eqb trimmed [] then Err Empty
  else
    let first_token_ := first_token trimmed in
    if contains trimmed (u "|") then
      check_pipe_segments p (split_on (Z.eqb 124) trimmed)
    else if contains trimmed (u "&&") || contains trimmed (u ";") then
      check_chain_segments p
        (split_on (fun c => (c =? 38) || (c =? 59)) trimmed)
    else if contains trimmed (u "$(") || contains trimmed (u "`") then
      Err SubshellBlocked
    else if contains trimmed (u "> /dev/") || contains trimmed (u "> /etc/")
            || contains trimmed (u "> /sys/") then
      Err DangerousRedirect
    else if is_allowed p first_token_ then Ok tt
    else Err (NotAllowed first_token_).

Definition is_ok {A E} (r : result A E) : bool :=
  match r with Ok _ => true | Err _ => false end.

(** The unit tests of shell.rs, on the model. *)
Example check_tests :
  map (fun s => is_ok (check default_policy (u s)))
    ["ls -la"; "cat /etc/hosts"; "grep -r TODO ."; "git status";
     "rm -rf /"; "sudo anything"; "dd if=/dev/zero"; "mkfs.ext4 /dev/sda";
     "ls | grep foo"; "cat file | rm -rf /";
     "echo $(rm -rf /)"; "echo `rm -rf /`";
     "/usr/bin/ls -la"; "/bin/cat file"]%string
  = [true; true; true; true; false; false; false; false; true; false;
     false; false; true; true].
Proof. vm_compute. reflexivity. Qed.

Example check_empty_policy : is_ok (check empty_policy (u "ls")) = false.
Proof. vm_compute. reflexivity. Qed.

End Shell.

(** Byte strings: each byte a [Z] in [0, 256). *)
Definition bytes := list Z.

(** [n] little-endian bytes of [z mod 256^n]. *)
Fixpoint le_bytes (n : nat) (z : Z) : bytes :=
  match n with
  | O => []
  | S n' => Z.land z 255 :: le_bytes n' (Z.shiftr z 8)
  end.

(** * ChaCha20-Poly1305 (crates/argus-crypto/src/cipher.rs)

    The AEAD comes from the [chacha20poly1305] crate (RFC 8439).  Its two
    primitives, the ChaCha20 block function and the Poly1305 MAC, are left
    abstract; the AEAD construction around them is written out: the
    keystream starts at block counter 1, the one-time MAC key is the first
    32 bytes of block 0, the tag is 16 bytes appended to the ciphertext, and
    a buffer of [u32::MAX] blocks or more is refused. *)
Module Cipher.

Definition KEY_SIZE : nat := 32.
Definition NONCE_SIZE : nat := 12.
Definition TAG_SIZE : nat := 16.
Definition BLOCK_SIZE : nat := 64.
Definition MAX_BLOCKS : Z := 4294967295.

Inductive CipherError :=
| EncryptionFailed
| DecryptionFailed
| InvalidKeySize (n : nat)
| InvalidNonceSize (n : nat).

(** The crate's opaque [aead::Error]. *)
Inductive AeadError := AeadErr.

Section Aead.
(** ChaCha20 block function: key, nonce, block counter -> 64 bytes. *)
Variable chacha20_block : bytes -> bytes -> Z -> bytes.
(** Poly1305: one-time key, message -> the tag as a number. *)
Variable poly1305 : bytes -> bytes -> Z.

Fixpoint keystream_blocks (key nonce : bytes) (ctr : Z) (n : nat) : bytes :=
  match n with
  | O => []
  | S n' => chacha20_block key nonce ctr ++ keystream_blocks key nonce (ctr + 1) n'
  end.

Definition keystream (key nonce : bytes) (len : nat) : bytes :=
  keystream_blocks key nonce 1 (Nat.div len BLOCK_SIZE + 1).

(** XOR of the data with the keystream, byte by byte. *)
Fixpoint xor_bytes (data ks : bytes) : bytes :=
  match data, ks with
  | [], _ => []
  | d :: data', [] => Z.lxor d 0 :: xor_bytes data' []
  | d :: data', k :: ks' => Z.lxor d k :: xor_bytes data' ks'
  end.

Definition pad16 (b : bytes) : bytes :=
  repeat 0 (Nat.modulo (16 - Nat.modulo (length b) 16) 16).

Definition mac_data (aad ct : bytes) : bytes :=
  aad ++ pad16 aad ++ ct ++ pad16 ct
      ++ le_bytes 8 (Z.of_nat (length aad)) ++ le_bytes 8 (Z.of_nat (length ct)).

Definition compute_tag (key nonce aad ct : bytes) : bytes :=
  le_bytes TAG_SIZE (poly1305 (firstn 32 (chacha20_block key nonce 0)) (mac_data aad ct)).

(** [Aead::encrypt(nonce, plaintext)]: ciphertext followed by the tag. *)
Definition aead_encrypt (key nonce pt : bytes) : result bytes AeadError :=
  if MAX_BLOCKS <=? Z.of_nat (length pt) / Z.of_nat BLOCK_SIZE then Err AeadErr
  else
    let ct := xor_bytes pt (keystream key nonce (length pt)) in
    Ok (ct ++ compute_tag key nonce [] ct).

(** [Aead::decrypt(nonce, ciphertext_with_tag)]. *)
Definition aead_decrypt (key nonce ctt : bytes) : result bytes AeadError :=
  if Nat.ltb (length ctt) TAG_SIZE then Err AeadErr
  else
    let ct := firstn (length ctt - TAG_SIZE) ctt in
    let tag := skipn (length ctt - TAG_SIZE) ctt in
    if MAX_BLOCKS <=? Z.of_nat (length ct) / Z.of_nat BLOCK_SIZE then Err AeadErr
    else if bool_decide (tag = compute_tag key nonce [] ct) then
      Ok (xor_bytes ct (keystream key nonce (length ct)))
    else Err AeadErr.

(** [cipher::encrypt]; [nonce_bytes] is what [generate_nonce] sampled. *)
Definition encrypt (key plaintext nonce_bytes : bytes) : result bytes CipherError :=
  if negb (Nat.eqb (length key) KEY_SIZE) then Err (InvalidKeySize (length key))
  else match aead_encrypt key nonce_bytes plaintext with
       | Err _ => Err EncryptionFailed
       | Ok ciphertext => Ok (nonce_bytes ++ ciphertext)
       end.

(** [cipher::decrypt]. *)
Definition decrypt (key ciphertext : bytes) : result bytes CipherError :=
  if negb (Nat.eqb (length key) KEY_SIZE) then Err (InvalidKeySize (length key))
  else if Nat.ltb (length ciphertext) NONCE_SIZE then Err DecryptionFailed
  else
    let nonce_bytes := firstn NONCE_SIZE ciphertext in
    let encrypted := skipn NONCE_SIZE ciphertext in
    match aead_decrypt key nonce_bytes encrypted with
    | Err _ => Err DecryptionFailed
    | Ok plaintext => Ok plaintext
    end.
End Aead.

End Cipher.

(** [String::from_utf8] succeeds exactly on well-formed UTF-8. *)
Fixpoint utf8_valid (b : bytes) : bool :=
  let cont y := (128 <=? y) && (y <=? 191) in
  match b with
  | [] => true
  | x :: r =>
      if x <? 128 then utf8_valid r
      else if (194 <=? x) && (x <=? 223) then
        match r with y :: r' => cont y && utf8_valid r' | [] => false end
      else if (224 <=? x) && (x <=? 239) then
        match r with
        | y :: z :: r' =>
            (if x =? 224 then (160 <=? y) && (y <=? 191)
             else if x =? 237 then (128 <=? y) && (y <=? 159)
             else cont y) && cont z && utf8_valid r'
        | _ => false
        end
      else if (240 <=? x) && (x <=? 244) then
        match r with
        | y :: z :: w :: r' =>
            (if x =? 240 then (144 <=? y) && (y <=? 191)
             else if x =? 244 then (128 <=? y) && (y <=? 143)
             else cont y) && cont z && cont w && utf8_valid r'
        | _ => false
        end
      else false
  end.

(** * Secure vault (crates/argus-crypto/src/vault.rs)

    The file system maps paths to directories and files.  A file at the
    vault path holds the serialized secrets map, represented by the map
    itself (serde_json of a [HashMap<String, Vec<u8>>] cannot fail and
    round-trips), or bytes that are not such a map.  [fs::write] fails on a
    directory, and wherever [write_fault] says (a missing parent directory,
    no permission, a full disk), after having created or truncated the file
    or not; [fs::read] fails wherever [read_fault] says. *)
Module Vault.

Inductive VaultError :=
| Locked
| NotFound (name : string)
| Encryption
| Decryption
| Io (msg : string)
| Keychain (msg : string).

Record SecureVault := mkVault {
  master_key : option bytes;          (* Option<Zeroizing<[u8; 32]>> *)
  vault_path : string;
  secrets : gmap string bytes
}.

Inductive vault_file :=
| Secrets (m : gmap string bytes)
| Unparsable.

Inductive fs_node :=
| File (f : vault_file)
| Dir.

Record disk := mkDisk {
  nodes : gmap string fs_node;
  write_fault : string -> option (string * bool);
  read_fault : string -> option string
}.

Definition set_node (p : string) (n : fs_node) (d : disk) : disk :=
  mkDisk (<[p := n]> (nodes d)) (write_fault d) (read_fault d).

Definition EISDIR : string := "Is a directory (os error 21)".

(** [fs::write(path, serde_json::to_vec(m))]. *)
Definition fs_write (path : string) (m : gmap string bytes) (d : disk)
    : result unit string * disk :=
  match nodes d !! path with
  | Some Dir => (Err EISDIR, d)
  | _ =>
      match write_fault d path with
      | Some (e, true) => (Err e, set_node path (File Unparsable) d)
      | Some (e, false) => (Err e, d)
      | None => (Ok tt, set_node path (File (Secrets m)) d)
      end
  end.

(** [fs::write] at [path] succeeds. *)
Definition write_ok (d : disk) (path : string) : bool :=
  match nodes d !! path with
  | Some Dir => false
  | _ => match write_fault d path with None => true | Some _ => false end
  end.

Section Ops.
Variable chacha20_block : bytes -> bytes -> Z -> bytes.
Variable poly1305 : bytes -> bytes -> Z.

(** [SecureVault::new]: a locked vault with no secrets. *)
Definition new (path : string) : SecureVault := mkVault None path ∅.

(** [SecureVault::save]; [?] turns the [io::Error] into [VaultError::Io]. *)
Definition save (v : SecureVault) (d : disk) : result unit VaultError * disk :=
  match fs_write (vault_path v) (secrets v) d with
  | (Ok _, d') => (Ok tt, d')
  | (Err e, d') => (Err (Io e), d')
  end.

(** [SecureVault::store]; [rng] is the 12 bytes [SystemRandom] fills
    ([None] if it fails).  The secret is in the map before [save] runs, so
    it stays there when [save] fails. *)
Definition store (v : SecureVault) (name : string) (secret : bytes)
    (rng : option bytes) (d : disk) : result unit VaultError * SecureVault * disk :=
  match master_key v with
  | None => (Err Locked, v, d)
  | Some key =>
      match rng with
      | None => (Err Encryption, v, d)
      | Some nonce_bytes =>
          match Cipher.aead_encrypt chacha20_block poly1305 key nonce_bytes secret with
          | Err _ => (Err Encryption, v, d)
          | Ok ciphertext =>
              let stored := nonce_bytes ++ ciphertext in
              let v' := mkVault (master_key v) (vault_path v)
                          (<[name := stored]> (secrets v)) in
              let (r, d') := save v' d in (r, v', d')
          end
      end
  end.

(** [SecureVault::retrieve]; [None] is the panic of [split_at(12)] on a
    blob shorter than 12 bytes. *)
Definition retrieve (v : SecureVault) (name : string)
    : option (result bytes VaultError) :=
  match master_key v with
  | None => Some (Err Locked)
  | Some key =>
      match secrets v !! name with
      | None => Some (Err (NotFound name))
      | Some stored =>
          if Nat.ltb (length stored) 12 then None
          else
            let nonce_bytes := take 12 stored in
            let ciphertext := drop 12 stored in
            match Cipher.aead_decrypt chacha20_block poly1305 key nonce_bytes ciphertext with
            | Err _ => Some (Err Decryption)
            | Ok plaintext =>
                if utf8_valid plaintext then Some (Ok plaintext)
                else Some (Err Decryption)
            end
      end
  end.

(** [SecureVault::list_keys] (HashMap iteration order is unspecified). *)
Definition list_keys (v : SecureVault) : list string :=
  map fst (map_to_list (secrets v)).

(** [SecureVault::delete]: the name leaves the map before [save] runs. *)
Definition delete (v : SecureVault) (name : string) (d : disk)
    : result unit VaultError * SecureVault * disk :=
  match secrets v !! name with
  | None => (Err (NotFound name), v, d)
  | Some _ =>
      let v' := mkVault (master_key v) (vault_path v) (base.delete name (secrets v)) in
      let (r, d') := save v' d in (r, v', d')
  end.
End Ops.

End Vault.

(** The UTF-8 encoding of one scalar value. *)
Definition utf8_char (c : Z) : bytes :=
  if c <? 128 then [c]
  else if c <? 2048 then [192 + Z.shiftr c 6; 128 + Z.land c 63]
  else if c <? 65536 then
    [224 + Z.shiftr c 12; 128 + Z.land (Z.shiftr c 6) 63; 128 + Z.land c 63]
  else [240 + Z.shiftr c 18; 128 + Z.land (Z.shiftr c 12) 63;
        128 + Z.land (Z.shiftr c 6) 63; 128 + Z.land c 63].

Definition utf8_encode (s : ustr) : bytes := flat_map utf8_char s.

(** * SQLite memory store (crates/argus-memory/src/sqlite.rs)

    The [memories] table is the list of its rows in rowid order.
    [importance] is a REAL that the code only compares ([MAX], [ORDER BY]);
    it is modelled by [Z].  Timestamps are [datetime('now')] texts
    "YYYY-MM-DD HH:MM:SS", whose text order is their time order; they are
    modelled by the second they denote.  The clock reading of a statement is
    an argument [now]. *)
Module Memory.

Record MemRow := mkRow {
  id : Z;
  memory_type : ustr;
  content : ustr;
  reasoning : option ustr;
  importance : Z;
  created_at : Z;
  updated_at : Z
}.

Record Db := mkDb {
  rows : list MemRow;
  next_id : Z       (* AUTOINCREMENT counter *)
}.

(** [argus_core::tools::MemoryRecord], the shape [recall] returns. *)
Record MemoryRecord := mkRecord {
  rec_memory_type : ustr;
  rec_content : ustr;
  rec_importance : Z;
  rec_created_at : Z
}.

(** SQLite's default [LIKE]: case folding of ASCII letters only. *)
Definition ascii_fold (c : Z) : Z :=
  if (65 <=? c) && (c <=? 90) then c + 32 else c.

(** SQLite [LIKE] without an ESCAPE clause: '%' (37) matches any
    sequence, '_' (95) any one character. *)
Fixpoint like (pat s : ustr) {struct pat} : bool :=
  match pat with
  | [] => match s with [] => true | _ :: _ => false end
  | c :: pat' =>
      if c =? 37 then
        (fix go (s : ustr) : bool :=
           like pat' s || match s with [] => false | _ :: s' => go s' end) s
      else
        match s with
        | [] => false
        | x :: s' => ((c =? 95) || (ascii_fold c =? ascii_fold x)) && like pat' s'
        end
  end.

(** [format!("%{}%", m)]. *)
Definition like_pattern (m : ustr) : ustr := [37] ++ m ++ [37].

(** [likeFunc] reads its pattern and its subject as C strings
    ([sqlite3_value_text]): each ends at its first NUL character. *)
Fixpoint before_nul (s : ustr) : ustr :=
  match s with
  | [] => []
  | c :: s' => if c =? 0 then [] else c :: before_nul s'
  end.

(** [SQLITE_MAX_LIKE_PATTERN_LENGTH], the default limit on the bytes of a
    LIKE pattern. *)
Definition LIKE_PATTERN_LIMIT : Z := 50000.

Definition msg_pattern_too_complex : ustr := u "LIKE or GLOB pattern too complex".

(** [likeFunc]: a pattern of more than [LIKE_PATTERN_LIMIT] UTF-8 bytes is
    an error of the statement; otherwise [patternCompare] on the two
    NUL-terminated texts. *)
Definition like_sql (pat s : ustr) : result bool ustr :=
  if LIKE_PATTERN_LIMIT <? Z.of_nat (length (utf8_encode pat)) then Err msg_pattern_too_complex
  else Ok (like (before_nul pat) (before_nul s)).

(** A statement evaluates its WHERE clause on the rows in rowid order; the
    first evaluation that fails aborts it (and rolls back its changes).
    [select_where] gives the rows the clause holds for, [delete_where] the
    rows a DELETE keeps and the number it deletes. *)
Fixpoint select_where (p : MemRow -> result bool ustr) (l : list MemRow)
    : result (list MemRow) ustr :=
  match l with
  | [] => Ok []
  | r :: l' =>
      match p r with
      | Err e => Err e
      | Ok b =>
          match select_where p l' with
          | Err e => Err e
          | Ok k => Ok (if b then r :: k else k)
          end
      end
  end.

Fixpoint delete_where (p : MemRow -> result bool ustr) (l : list MemRow)
    : result (list MemRow * nat) ustr :=
  match l with
  | [] => Ok ([], 0%nat)
  | r :: l' =>
      match p r with
      | Err e => Err e
      | Ok b =>
          match delete_where p l' with
          | Err e => Err e
          | Ok (kept, n) => Ok (if b then (kept, S n) else (r :: kept, n))
          end
      end
  end.

Definition ustr_of_nat (n : nat) : ustr := u (pretty (N.of_nat n)).

(** The messages returned by [remember] and [forget] (9989 is U+2705). *)
Definition msg_updated : ustr := 9989 :: u " Memory updated (already existed)".
Definition msg_remembered (mt c : ustr) : ustr :=
  9989 :: u " Remembered [" ++ mt ++ u "]: " ++ c.
Definition msg_forgot (n : nat) : ustr :=
  9989 :: u " Forgot " ++ ustr_of_nat n ++ u " memories".

(** [SqliteMemory::remember]: the SELECT, then the UPDATE or the INSERT. *)
Definition remember (db : Db) (mt c : ustr) (rs : option ustr) (imp : Z) (now : Z)
    : result ustr ustr * Db :=
  let existing := existsb (fun r => ustr_eqb (content r) c) (rows db) in
  if existing then
    let upd r :=
      if ustr_eqb (content r) c then
        mkRow (id r) (memory_type r) (content r) (reasoning r)
              (Z.max (importance r) imp) (created_at r) now
      else r in
    (Ok msg_updated, mkDb (map upd (rows db)) (next_id db))
  else
    let r := mkRow (next_id db) mt c rs imp now now in
    (Ok (msg_remembered mt c), mkDb (rows db ++ [r]) (next_id db + 1)).

(** [SqliteMemory::forget]: [DELETE ... WHERE content LIKE '%m%'] and the
    number of rows it changed; a failed statement is reported as
    "Failed to forget: " and the SQLite message, and changes nothing. *)
Definition forget (db : Db) (m : ustr) : result ustr ustr * Db :=
  let pat := like_pattern m in
  match delete_where (fun r => like_sql pat (content r)) (rows db) with
  | Err e => (Err (u "Failed to forget: " ++ e), db)
  | Ok (kept, deleted) => (Ok (msg_forgot deleted), mkDb kept (next_id db))
  end.

(** The WHERE clause of each of the four queries of [recall].  When both
    filters are given SQLite may test [memory_type] first (through
    [idx_memories_type]); a failing LIKE then fails on the first row of
    that type, if there is one, and no row of the result comes before it:
    the result is empty in both orders. *)
Definition recall_where (query mt : option ustr) (r : MemRow) : result bool ustr :=
  match query, mt with
  | Some q, Some t =>
      match like_sql (like_pattern q) (content r) with
      | Err e => Err e
      | Ok b => Ok (b && ustr_eqb (memory_type r) t)
      end
  | Some q, None => like_sql (like_pattern q) (content r)
  | None, Some t => Ok (ustr_eqb (memory_type r) t)
  | None, None => Ok true
  end.

Definition to_record (r : MemRow) : MemoryRecord :=
  mkRecord (memory_type r) (content r) (importance r) (created_at r).

(** [limit as i64] on a 64-bit [usize]; a negative LIMIT means no limit. *)
Definition sql_limit (limit : nat) : option nat :=
  let z := Z.of_nat limit mod 2 ^ 64 in
  if z <? 2 ^ 63 then Some (Z.to_nat z) else None.

Definition apply_limit {A} (l : option nat) (xs : list A) : list A :=
  match l with Some n => take n xs | None => xs end.

(** [ORDER BY importance DESC]: SQL fixes no order among rows of equal
    importance, so the results of [recall] are given as a relation: any
    importance-descending arrangement of the selected rows, then LIMIT.
    When the statement fails, [query_map]'s iterator yields one [Err],
    which the loop skips, and ends: the result is empty. *)
Definition importance_desc (a b : MemRow) : Prop := importance b <= importance a.

Definition recall_result (db : Db) (query mt : option ustr) (limit : nat)
    (res : list MemoryRecord) : Prop :=
  match select_where (recall_where query mt) (rows db) with
  | Err _ => res = []
  | Ok selected =>
      exists ordered : list MemRow,
        Permutation ordered selected /\
        Sorted importance_desc ordered /\
        res = map to_record (apply_limit (sql_limit limit) ordered)
  end.

(** The arrangement SQLite produces here: its index on [importance DESC]
    keeps equal keys in rowid order, i.e. a stable sort of the table. *)
Fixpoint insert_desc (r : MemRow) (l : list MemRow) : list MemRow :=
  match l with
  | [] => [r]
  | x :: l' => if importance x <? importance r then r :: l else x :: insert_desc r l'
  end.

Definition sort_desc (l : list MemRow) : list MemRow :=
  fold_right insert_desc [] (rev l).

Definition recall (db : Db) (query mt : option ustr) (limit : nat)
    : list MemoryRecord :=
  match select_where (recall_where query mt) (rows db) with
  | Err _ => []
  | Ok selected => map to_record (apply_limit (sql_limit limit) (sort_desc selected))
  end.

End Memory.

Set Warnings "-register-all".

(** * JSON values ([serde_json::Value]); object fields in insertion order. *)
Inductive json :=
| JNull
| JBool (b : bool)
| JNum (n : Z)
| JStr (s : string)
| JArr (l : list json)
| JObj (fields : list (string * json)).

(** [Value::get] with a string key: [None] on a non-object or a missing key. *)
Definition jget (j : json) (k : string) : option json :=
  match j with
  | JObj fs => snd <$> List.find (fun kv => String.eqb (fst kv) k) fs
  | _ => None
  end.

(** [value["k"]]: [Null] when [get] finds nothing. *)
Definition jidx (j : json) (k : string) : json :=
  match jget j k with Some v => v | None => JNull end.

(** [value[n]] on an array. *)
Definition jidx_n (j : json) (n : nat) : json :=
  match j with
  | JArr l => match nth_error l n with Some v => v | None => JNull end
  | _ => JNull
  end.

Definition as_str (j : json) : option string :=
  match j with JStr s => Some s | _ => None end.

Definition as_array (j : json) : option (list json) :=
  match j with JArr l => Some l | _ => None end.

Definition unwrap_or {A} (d : A) (o : option A) : A :=
  match o with Some a => a | None => d end.

(** * External tool client, the part the agent uses (argus-cli/src/mcp.rs) *)
Module Mcp.

Record McpTool := mkTool {
  name : string;
  description : option string;
  input_schema : json;
  server_name : string
}.

Record McpServer := mkServer {
  srv_name : string;
  tools : list McpTool
}.

Record McpClient := mkClient { servers : list McpServer }.

(** [McpClient::all_tools]. *)
Definition all_tools (c : McpClient) : list McpTool := flat_map tools (servers c).

End Mcp.

(** * Agent turn loop (crates/argus-core/src/agent.rs) *)
Module Agent.

Definition MAX_TOOL_ROUNDS : nat := 10.

Inductive AgentEvent :=
| Thinking
| ToolCall (name preview : string)
| ToolResult (name preview : string)
| Response (text : string)
| Error (text : string).

Record AgentConfig := mkConfig {
  api_key : string;
  model : string;
  api_url : string;
  temperature : json    (* the f64, as serde_json renders it *)
}.

(** What the chat-completion request yields: a failed [send], a body that
    [resp.json()] cannot parse, or the parsed body. *)
Inductive api_outcome :=
| SendFailed (e : string)
| ParseFailed (e : string)
| Received (body : json).

Definition max_rounds_message : string :=
  "I've reached the maximum number of tool calls. Here's what I found so far based on the results above.".

(** The match arms of [tools::execute_builtin]. *)
Definition builtin_names : list string :=
  ["read_file"; "list_directory"; "write_file"; "shell"; "web_search";
   "remember"; "recall"; "forget"; "http_request"]%string.

(** [&s[..100]] requires [s.is_char_boundary(100)]. *)
Definition is_char_boundary (s : string) (i : nat) : bool :=
  Nat.eqb i 0 ||
  match String.get i s with
  | None => Nat.eqb i (String.length s)
  | Some c => Nat.ltb (nat_of_ascii c) 128 || Nat.leb 192 (nat_of_ascii c)
  end.

(** The ToolResult preview; [None] is the panic of the slice. *)
Definition result_preview (result : string) : option string :=
  if Nat.ltb 100 (String.length result) then
    if is_char_boundary result 100
    then Some (String.substring 0 100 result +:+ "...")
    else None
  else Some result.

(** Outcome of a computation: go on, leave [run_agent_turn] with a value
    ([return] or [?]), or panic. *)
Inductive step (A : Type) :=
| Next (a : A)
| Exit (r : result string string)
| Panicked.
Arguments Next {A} a.
Arguments Exit {A} r.
Arguments Panicked {A}.

Section Turn.
(** The world the endpoint and the tools act on. *)
Variable W : Type.
(** The HTTP POST: url, authorization header, JSON body. *)
Variable endpoint : string -> string -> json -> W -> api_outcome * W.
(** The bodies of the nine built-in tools ([tool_read_file], ...). *)
Variable run_builtin : string -> json -> W -> string * W.
(** [McpServer::call_tool] on the server of the given name. *)
Variable server_call : string -> string -> json -> W -> result string string * W.
(** [serde_json::from_str] and [serde_json::to_string]. *)
Variable from_str : string -> option json.
Variable to_string : json -> string.
(** Descriptions and parameter schemas of [builtin_tool_schemas]. *)
Variable builtin_description : string -> string.
Variable builtin_parameters : string -> json.

(** The state monad over the world and the events passed to [on_event]. *)
Definition M (A : Type) : Type :=
  W -> list AgentEvent -> step A * W * list AgentEvent.

Definition ret {A} (a : A) : M A := fun w evs => (Next a, w, evs).

Definition bind {A B} (c : M A) (k : A -> M B) : M B :=
  fun w evs =>
    match c w evs with
    | (Next a, w', evs') => k a w' evs'
    | (Exit r, w', evs') => (Exit r, w', evs')
    | (Panicked, w', evs') => (Panicked, w', evs')
    end.

Definition emit (e : AgentEvent) : M unit := fun w evs => (Next tt, w, evs ++ [e]).
Definition lift {A} (f : W -> A * W) : M A :=
  fun w evs => let (a, w') := f w in (Next a, w', evs).
Definition exit {A} (r : result string string) : M A := fun w evs => (Exit r, w, evs).
Definition panic {A} : M A := fun w evs => (Panicked, w, evs).

Local Notation "x <- c ;; k" := (bind c (fun x => k))
  (at level 100, c at next level, right associativity).
Local Notation "c ;;; k" := (bind c (fun _ => k))
  (at level 100, right associativity).

(** [tools::builtin_tool_schemas()]. *)
Definition builtin_tool_schemas : list json :=
  map (fun n => JObj [("type", JStr "function");
                      ("function", JObj [("name", JStr n);
                                         ("description", JStr (builtin_description n));
                                         ("parameters", builtin_parameters n)])])
      builtin_names.

(** [tools::execute_builtin]. *)
Definition execute_builtin (name : string) (args : json) (w : W) : option string * W :=
  if existsb (String.eqb name) builtin_names then
    let (out, w') := run_builtin name args w in (Some out, w')
  else (None, w).

(** [McpClient::call_tool]: the first server advertising the name. *)
Definition mcp_call_tool (mcp : Mcp.McpClient) (tool_name : string) (args : json)
    (w : W) : result string string * W :=
  match List.find (fun s => existsb (fun t => String.eqb (Mcp.name t) tool_name)
                                    (Mcp.tools s)) (Mcp.servers mcp) with
  | Some s => server_call (Mcp.srv_name s) tool_name args w
  | None => (Err ("Tool '" +:+ tool_name +:+ "' not found in any MCP server"), w)
  end.

Definition mcp_schema (t : Mcp.McpTool) : json :=
  JObj [("type", JStr "function");
        ("function", JObj [("name", JStr (Mcp.name t));
                           ("description", JStr (unwrap_or "" (Mcp.description t)));
                           ("parameters", Mcp.input_schema t)])].

(** The tool list: MCP tools first, then the built-ins whose names are free. *)
Definition build_catalog (mcp : Mcp.McpClient) : list json :=
  let registered_names := map Mcp.name (Mcp.all_tools mcp) in
  map mcp_schema (Mcp.all_tools mcp) ++
  List.filter (fun schema =>
            let name := unwrap_or "" (as_str (jidx (jidx schema "function") "name")) in
            negb (String.eqb name "") &&
            negb (existsb (String.eqb name) registered_names))
         builtin_tool_schemas.

Definition request_body (config : AgentConfig) (messages tool_schemas : list json) : json :=
  JObj [("model", JStr (model config)); ("messages", JArr messages);
        ("tools", JArr tool_schemas); ("tool_choice", JStr "auto");
        ("temperature", temperature config)].

(** The UI preview of a tool call. *)
Definition call_preview (name : string) (args : json) : string :=
  if String.eqb name "shell" then unwrap_or "" (as_str (jidx args "command"))
  else if String.eqb name "read_file" then unwrap_or "" (as_str (jidx args "path"))
  else if String.eqb name "write_file" then unwrap_or "" (as_str (jidx args "path"))
  else if String.eqb name "web_search" then unwrap_or "" (as_str (jidx args "query"))
  else to_string args.

(** Built-in first, then MCP, else "Unknown tool". *)
Definition dispatch (mcp : Mcp.McpClient) (name : string) (args : json) : M string :=
  o <- lift (execute_builtin name args) ;;
  match o with
  | Some output => ret output
  | None =>
      r <- lift (mcp_call_tool mcp name args) ;;
      match r with
      | Ok output => ret output
      | Err _ => ret ("Unknown tool: " +:+ name)
      end
  end.

(** One iteration of [for tool_call in &tool_calls]. *)
Definition run_tool_call (mcp : Mcp.McpClient) (messages : list json) (tool_call : json)
    : M (list json) :=
  let name := unwrap_or "" (as_str (jidx (jidx tool_call "function") "name")) in
  let tool_call_id := unwrap_or "" (as_str (jidx tool_call "id")) in
  let args := unwrap_or (JObj [])
                (match as_str (jidx (jidx tool_call "function") "arguments") with
                 | Some s => from_str s
                 | None => None
                 end) in
  let preview := call_preview name args in
  emit (ToolCall name preview) ;;;
  result <- dispatch mcp name args ;;
  match result_preview result with
  | None => panic
  | Some rp =>
      emit (ToolResult name rp) ;;;
      ret (messages ++ [JObj [("role", JStr "tool"); ("tool_call_id", JStr tool_call_id);
                              ("content", JStr result)]])
  end.

Fixpoint run_tool_calls (mcp : Mcp.McpClient) (messages : list json) (calls : list json)
    : M (list json) :=
  match calls with
  | [] => ret messages
  | tc :: rest => messages' <- run_tool_call mcp messages tc ;; run_tool_calls mcp messages' rest
  end.

(** The body of [for _round in 0..MAX_TOOL_ROUNDS]. *)
Definition round (config : AgentConfig) (mcp : Mcp.McpClient) (tool_schemas : list json)
    (messages : list json) : M (list json) :=
  resp <- lift (endpoint (api_url config) ("Bearer " +:+ api_key config)
                         (request_body config messages tool_schemas)) ;;
  match resp with
  | SendFailed e => exit (Err ("API request failed: " +:+ e))
  | ParseFailed e => exit (Err ("Failed to parse API response: " +:+ e))
  | Received j =>
      match jget j "error" with
      | Some err =>
          let msg := unwrap_or "Unknown API error" (as_str (jidx err "message")) in
          emit (Error msg) ;;; exit (Err msg)
      | None =>
          let message := jidx (jidx_n (jidx j "choices") 0) "message" in
          match match jget message "tool_calls" with
                | Some tc => as_array tc
                | None => None
                end with
          | Some ((_ :: _) as calls) =>
              run_tool_calls mcp (messages ++ [message]) calls
          | _ =>
              let content := unwrap_or "(no response)" (as_str (jidx message "content")) in
              emit (Response content) ;;; exit (Ok content)
          end
      end
  end.

Fixpoint rounds (n : nat) (config : AgentConfig) (mcp : Mcp.McpClient)
    (tool_schemas : list json) (messages : list json) : M (list json) :=
  match n with
  | O => ret messages
  | S n' => messages' <- round config mcp tool_schemas messages ;;
            rounds n' config mcp tool_schemas messages'
  end.

Variable SYSTEM_PROMPT : string.

Definition turn (config : AgentConfig) (user_message : string) (mcp : Mcp.McpClient)
    : M unit :=
  emit Thinking ;;;
  let tool_schemas := build_catalog mcp in
  let messages := [JObj [("role", JStr "system"); ("content", JStr SYSTEM_PROMPT)];
                   JObj [("role", JStr "user"); ("content", JStr user_message)]] in
  _ <- rounds MAX_TOOL_ROUNDS config mcp tool_schemas messages ;;
  emit (Response max_rounds_message) ;;; exit (Ok max_rounds_message).

(** [run_agent_turn]: the value returned ([None] for a panic), the final
    world and the events passed to [on_event], in order. *)
Definition run_agent_turn (config : AgentConfig) (user_message : string)
    (mcp : Mcp.McpClient) (w : W) : option (result string string) * W * list AgentEvent :=
  match turn config user_message mcp w [] with
  | (Exit r, w', evs) => (Some r, w', evs)
  | (Next _, w', evs) => (None, w', evs)
  | (Panicked, w', evs) => (None, w', evs)
  end.
End Turn.

End Agent.

(** * Concrete inputs used by the properties below *)
Module Scenarios.

(** "é" in UTF-8. *)
Definition e_acute : string :=
  String (ascii_of_nat 195) (String (ascii_of_nat 169) EmptyString).

Fixpoint rep (n : nat) (s : string) : string :=
  match n with O => EmptyString | S n' => s +:+ rep n' s end.

(** 101 bytes of valid UTF-8; byte offset 100 is the second byte of an "é". *)
Definition wide_result : string := "a" +:+ rep 50 e_acute.

Definition cfg : Agent.AgentConfig :=
  Agent.mkConfig "sk-test" "google/gemini-3-flash-preview"
    "https://openrouter.ai/api/v1/chat/completions" (JNum 0).

Definition no_mcp : Mcp.McpClient := Mcp.mkClient [].

(** A server advertising a tool named like the built-in [web_search]. *)
Definition search_mcp : Mcp.McpClient :=
  Mcp.mkClient [Mcp.mkServer "search"
                  [Mcp.mkTool "web_search" (Some "External search") (JObj []) "search"]].

Definition desc (_ : string) : string := "".
Definition params (_ : string) : json := JObj [].
Definition show_args (_ : json) : string := "{}".
Definition parse_args (s : string) : option json :=
  if String.eqb s "{}" then Some (JObj []) else None.

Definition call_json (id name args : string) : json :=
  JObj [("id", JStr id); ("type", JStr "function");
        ("function", JObj [("name", JStr name); ("arguments", JStr args)])].

Definition tool_reply (calls : list json) : json :=
  JObj [("choices", JArr [JObj [("message", JObj [("role", JStr "assistant");
                                                  ("tool_calls", JArr calls)])]])].

Definition text_reply (text : string) : json :=
  JObj [("choices", JArr [JObj [("message", JObj [("role", JStr "assistant");
                                                  ("content", JStr text)])]])].

(** An endpoint that cannot be reached. *)
Definition endpoint_down {W} (_ _ : string) (_ : json) (w : W) : Agent.api_outcome * W :=
  (Agent.SendFailed "error sending request: connection refused", w).

(** A double quote and a line feed. *)
Definition dq : string := String (ascii_of_nat 34) EmptyString.
Definition lf : string := String (ascii_of_nat 10) EmptyString.

(** The arguments {"path":"wide.txt"}, and a parser that knows them. *)
Definition read_args : string :=
  "{" +:+ dq +:+ "path" +:+ dq +:+ ":" +:+ dq +:+ "wide.txt" +:+ dq +:+ "}".
Definition parse_read_args (s : string) : option json :=
  if String.eqb s read_args then Some (JObj [("path", JStr "wide.txt")]) else parse_args s.

(** A model that asks for [read_file] of "wide.txt" on every round. *)
Definition endpoint_always_read {W} (_ _ : string) (_ : json) (w : W) : Agent.api_outcome * W :=
  (Agent.Received (tool_reply [call_json "call_1" "read_file" read_args]), w).

(** The 8000 bytes [tool_read_file] keeps of a longer file. *)
Definition read_cap : nat := Z.to_nat 8000.

(** [tool_read_file] (tools.rs) on a file system of regular files, given
    as paths and their bytes; [None] is the panic of [&content[..8000]].
    [read_to_string] fails on a missing path and on bytes that are not
    UTF-8. *)
Definition tool_read_file (files : list (string * string)) (args : json) : option string :=
  let path := unwrap_or "" (as_str (jidx args "path")) in
  match List.find (fun f => String.eqb (fst f) path) files with
  | None => Some ("Error reading file: No such file or directory (os error 2)")
  | Some (_, content) =>
      if negb (utf8_valid (map (fun c => Z.of_nat (nat_of_ascii c)) (list_ascii_of_string content)))
      then Some ("Error reading file: stream did not contain valid UTF-8")
      else if Nat.ltb read_cap (String.length content) then
        if Agent.is_char_boundary content read_cap
        then Some (String.substring 0 read_cap content +:+ "..." +:+ lf +:+ "[truncated, " +:+
                   pretty (N.of_nat (String.length content)) +:+ " bytes total]")
        else None
      else Some content
  end.

(** A file system holding [wide_result] as "wide.txt". *)
Definition wide_files : list (string * string) := [("wide.txt", wide_result)].

(** Tools that answer with a fixed text. *)
Definition builtin_says {W} (out : string) (_ : string) (_ : json) (w : W) : string * W :=
  (out, w).
Definition server_fails {W} (_ _ : string) (_ : json) (w : W) : result string string * W :=
  (Err "unreachable", w).

(** Worlds that log which implementation served each call. *)
Definition builtin_logged (name : string) (_ : json) (w : list string) : string * list string :=
  ("builtin result", w ++ ["builtin:" +:+ name]).
Definition server_logged (srv name : string) (_ : json) (w : list string)
    : result string string * list string :=
  (Ok "external result", w ++ ["mcp:" +:+ srv +:+ ":" +:+ name]).

(** A model that asks for [web_search] once, then answers. *)
Definition endpoint_search_once (_ _ : string) (_ : json) (w : list string)
    : Agent.api_outcome * list string :=
  match w with
  | [] => (Agent.Received (tool_reply [call_json "call_1" "web_search" "{}"]), w)
  | _ :: _ => (Agent.Received (text_reply "done"), w)
  end.

Definition descriptors_named (n : string) (catalog : list json) : nat :=
  length (List.filter (fun s => String.eqb (unwrap_or "" (as_str (jidx (jidx s "function") "name"))) n)
                 catalog).

End Scenarios.

Set Warnings "-register-all".

(** The bytes of a Rust [String] held as a Rocq [string]. *)
Definition string_bytes (s : string) : bytes :=
  map (fun c => Z.of_nat (nat_of_ascii c)) (list_ascii_of_string s).

Definition string_of_bytes (b : bytes) : string :=
  string_of_list_ascii (map (fun z => ascii_of_nat (Z.to_nat z)) b).

(** The scalar values of well-formed UTF-8 (a [&str] viewed as [chars()]). *)
Fixpoint utf8_decode (b : bytes) : ustr :=
  match b with
  | [] => []
  | x :: r =>
      if x <? 128 then x :: utf8_decode r
      else if x <? 224 then
        match r with
        | y :: r' => (Z.shiftl (Z.land x 31) 6 + Z.land y 63) :: utf8_decode r'
        | [] => []
        end
      else if x <? 240 then
        match r with
        | y :: z :: r' =>
            (Z.shiftl (Z.land x 15) 12 + Z.shiftl (Z.land y 63) 6 + Z.land z 63)
              :: utf8_decode r'
        | _ => []
        end
      else
        match r with
        | y :: z :: t :: r' =>
            (Z.shiftl (Z.land x 7) 18 + Z.shiftl (Z.land y 63) 12
             + Z.shiftl (Z.land z 63) 6 + Z.land t 63) :: utf8_decode r'
        | _ => []
        end
  end.

Definition nl : string := String (ascii_of_nat 10) EmptyString.

(** * Shell policy edits and execution (crates/argus-core/src/shell.rs, tools.rs) *)
Module ShellExec.
Import Shell.

(** [ShellPolicy::allow]: [HashSet::insert]. *)
Definition allow (p : ShellPolicy) (cmd : ustr) : ShellPolicy :=
  mkShellPolicy
    (if existsb (ustr_eqb cmd) (allowed_prefixes p) then allowed_prefixes p
     else allowed_prefixes p ++ [cmd])
    (max_output_bytes p) (timeout_secs p).

(** [ShellPolicy::deny]: [HashSet::remove]. *)
Definition deny (p : ShellPolicy) (cmd : ustr) : ShellPolicy :=
  mkShellPolicy (List.filter (fun x => negb (ustr_eqb x cmd)) (allowed_prefixes p))
    (max_output_bytes p) (timeout_secs p).

(** The [Display] texts of [ShellDenied] (its [#[error]] attributes). *)
Definition display (e : ShellDenied) : string :=
  match e with
  | Empty => "Empty command"
  | NotAllowed cmd => "Command not in allowlist: " +:+ string_of_bytes (utf8_encode cmd)
  | SubshellBlocked => "Subshell execution ($() or backticks) not allowed"
  | DangerousRedirect => "Redirect to sensitive path blocked"
  end.

(** The fields of [std::process::Output] the code reads. *)
Record Output := mkOutput {
  status_success : bool;
  status_code : option Z;     (* [None] when a signal ended the process *)
  stdout : bytes;
  stderr : bytes
}.

(** "⛔" (U+26D4) in UTF-8. *)
Definition no_entry : string :=
  string_of_bytes [226; 155; 148].

Section Exec.
Variable W : Type.
(** [Command::new("sh").arg("-c").arg(command).output()]: the output, or
    the text of the spawn error. *)
Variable spawn : string -> W -> result Output string * W.
(** [String::from_utf8_lossy]. *)
Variable from_utf8_lossy : bytes -> string.

(** [shell::execute_shell]; [None] is the panic of [&out[..max_output_bytes]]. *)
Definition execute_shell (policy : ShellPolicy) (command : string) (w : W)
    : option (result string ShellDenied) * W :=
  match check policy (utf8_decode (string_bytes command)) with
  | Err e => (Some (Err e), w)
  | Ok _ =>
      match spawn command w with
      | (Err e, w') =>
          (Some (Err (NotAllowed (utf8_decode (string_bytes ("spawn failed: " +:+ e))))), w')
      | (Ok output, w') =>
          let stdout := from_utf8_lossy (stdout output) in
          let stderr := from_utf8_lossy (stderr output) in
          if status_success output then
            let out := stdout in
            if Nat.ltb (max_output_bytes policy) (String.length out) then
              if Agent.is_char_boundary out (max_output_bytes policy) then
                (Some (Ok (substring 0 (max_output_bytes policy) out +:+ "..." +:+ nl
                           +:+ "[truncated, " +:+ pretty (N.of_nat (String.length out))
                           +:+ " bytes total]")), w')
              else (None, w')
            else (Some (Ok out), w')
          else
            (Some (Ok ("Exit " +:+ pretty (unwrap_or (-1) (status_code output)) +:+ ": "
                       +:+ stderr)), w')
      end
  end.

(** [tools::tool_shell]. *)
Definition tool_shell (args : json) (policy : ShellPolicy) (w : W) : option string * W :=
  let command := unwrap_or "" (as_str (jidx args "command")) in
  match execute_shell policy command w with
  | (None, w') => (None, w')
  | (Some (Ok output), w') => (Some output, w')
  | (Some (Err e), w') => (Some (no_entry +:+ " " +:+ display e), w')
  end.
End Exec.

End ShellExec.

(** * Hardware keychain (crates/argus-crypto/src/keychain.rs)

    The platform store is the map of its entries (service, user) ->
    password; [platform_failure] is the error text of a platform that
    refuses every call ([keyring::Entry::new] fails). *)
Module Keychain.

Inductive KeychainError :=
| NotAvailable
| AccessDenied
| NotFound
| Platform (msg : string).

Definition display (e : KeychainError) : string :=
  match e with
  | NotAvailable => "Keychain not available"
  | AccessDenied => "Access denied"
  | NotFound => "Item not found"
  | Platform msg => "Platform error: " +:+ msg
  end.

Record KeychainProvider := mkProvider { service_name : string }.

Record Keyring := mkKeyring {
  entries : gmap (string * string) string;
  platform_failure : option string
}.

(** [KeychainProvider::new]. *)
Definition new (service_name : string) : KeychainProvider := mkProvider service_name.

Definition entry_new (kr : Keyring) : result unit string :=
  match platform_failure kr with Some e => Err e | None => Ok tt end.

(** [format!("{:02x}", b)]: one lowercase hex digit. *)
Definition hex_digit (n : Z) : ascii :=
  ascii_of_nat (Z.to_nat (if n <? 10 then 48 + n else 87 + n)).

(** [hex_encode]. *)
Definition hex_encode (data : bytes) : string :=
  String.concat ""
    (map (fun b => String (hex_digit (Z.shiftr b 4)) (String (hex_digit (Z.land b 15)) EmptyString))
         data).

(** [(c as char).to_digit(16)]. *)
Definition to_digit16 (c : ascii) : option Z :=
  let n := Z.of_nat (nat_of_ascii c) in
  if (48 <=? n) && (n <=? 57) then Some (n - 48)
  else if (97 <=? n) && (n <=? 102) then Some (n - 87)
  else if (65 <=? n) && (n <=? 70) then Some (n - 55)
  else None.

(** [u8::from_str_radix(src, 16)], with the texts of its [ParseIntError]s:
    an optional '+' sign, then hex digits. *)
Definition u8_from_str_radix16 (src : string) : result Z string :=
  match src with
  | EmptyString => Err "cannot parse integer from empty string"
  | String c rest =>
      if (Ascii.eqb c "+" || Ascii.eqb c "-") && String.eqb rest "" then
        Err "invalid digit found in string"
      else
        let digits := if Ascii.eqb c "+" then rest else src in
        (fix go (acc : Z) (d : string) : result Z string :=
           match d with
           | EmptyString => Ok acc
           | String x d' =>
               match to_digit16 x with
               | None => Err "invalid digit found in string"
               | Some v =>
                   if 255 <? acc * 16 + v then Err "number too large to fit in target type"
                   else go (acc * 16 + v) d'
               end
           end) 0 digits
  end.

(** [u8::from_str_radix(&s[i..i+2], 16)]; [None] is the panic of a slice
    that does not fall on character boundaries. *)
Definition hex_pair (s : string) (i : nat) : option (result Z string) :=
  if Agent.is_char_boundary s i && Agent.is_char_boundary s (i + 2)
  then Some (u8_from_str_radix16 (substring i 2 s))
  else None.

(** [collect::<Result<Vec<_>, _>>()] of the lazy map: it stops at the
    first error, so a later slice is never taken. *)
Fixpoint collect_results (l : list (option (result Z string)))
    : option (result bytes string) :=
  match l with
  | [] => Some (Ok [])
  | None :: _ => None
  | Some (Err e) :: _ => Some (Err e)
  | Some (Ok v) :: l' =>
      match collect_results l' with
      | Some (Ok vs) => Some (Ok (v :: vs))
      | r => r
      end
  end.

(** [hex_decode]; [(0..s.len()).step_by(2)] is [2k] for [k < ceil(len/2)]. *)
Definition hex_decode (s : string) : option (result bytes string) :=
  if negb (Nat.even (String.length s)) then Some (Err "Invalid hex string length")
  else collect_results (map (fun k => hex_pair s (2 * k))
                            (seq 0 (Nat.div (String.length s + 1) 2))).

(** [KeychainProvider::store_master_key]. *)
Definition store_master_key (p : KeychainProvider) (key : bytes) (kr : Keyring)
    : result unit KeychainError * Keyring :=
  match entry_new kr with
  | Err e => (Err (Platform e), kr)
  | Ok _ =>
      let encoded := hex_encode key in
      (Ok tt, mkKeyring (<[(service_name p, "master_key") := encoded]> (entries kr))
                        (platform_failure kr))
  end.

(** [KeychainProvider::retrieve_master_key]; [None] is a panic of
    [hex_decode]. *)
Definition retrieve_master_key (p : KeychainProvider) (kr : Keyring)
    : option (result bytes KeychainError) :=
  match entry_new kr with
  | Err e => Some (Err (Platform e))
  | Ok _ =>
      match entries kr !! (service_name p, "master_key") with
      | None => Some (Err NotFound)
      | Some encoded =>
          match hex_decode encoded with
          | None => None
          | Some (Err e) => Some (Err (Platform e))
          | Some (Ok key) => Some (Ok key)
          end
      end
  end.

End Keychain.

(** * Vault creation and unlocking (crates/argus-crypto/src/vault.rs) *)
Module VaultKeys.
Import Vault.

(** [SecureVault::load]: when something exists at the vault path, it is
    read ([fs::read] fails on a directory) and parsed, and the map read
    replaces the in-memory one. *)
Definition load (v : SecureVault) (d : disk) : result unit VaultError * SecureVault :=
  match nodes d !! vault_path v with
  | None => (Ok tt, v)
  | Some Dir => (Err (Io EISDIR), v)
  | Some (File f) =>
      match read_fault d (vault_path v) with
      | Some e => (Err (Io e), v)
      | None =>
          match f with
          | Secrets m => (Ok tt, mkVault (master_key v) (vault_path v) m)
          | Unparsable => (Err Decryption, v)
          end
      end
  end.

(** [SecureVault::unlock]; [None] is a panic: of [hex_decode], or of
    [copy_from_slice] on a keychain key that is not 32 bytes long. *)
Definition unlock (v : SecureVault) (kr : Keychain.Keyring) (d : disk)
    : option (result unit VaultError * SecureVault) :=
  let keychain := Keychain.new "argus" in
  match Keychain.retrieve_master_key keychain kr with
  | None => None
  | Some (Err e) => Some (Err (Keychain (Keychain.display e)), v)
  | Some (Ok key_vec) =>
      if negb (Nat.eqb (length key_vec) 32) then None
      else Some (load (mkVault (Some key_vec) (vault_path v) (secrets v)) d)
  end.

(** [SecureVault::init]; [rng] is the 32 bytes [SystemRandom] fills
    ([None] if it fails) and [dirs] the outcome of [create_dir_all] (the
    directories it creates are not recorded: only the node at the vault
    path matters to the vault). *)
Definition init (vault_path : string) (rng : option bytes) (dirs : result unit string)
    (kr : Keychain.Keyring) (d : disk)
    : result SecureVault VaultError * Keychain.Keyring * disk :=
  match rng with
  | None => (Err Encryption, kr, d)
  | Some key =>
      let keychain := Keychain.new "argus" in
      match Keychain.store_master_key keychain key kr with
      | (Err e, kr') => (Err (Keychain (Keychain.display e)), kr', d)
      | (Ok _, kr') =>
          match dirs with
          | Err e => (Err (Io e), kr', d)
          | Ok _ =>
              let vault := mkVault (Some key) vault_path ∅ in
              match save vault d with
              | (Ok _, d') => (Ok vault, kr', d')
              | (Err e, d') => (Err e, kr', d')
              end
          end
      end
  end.

End VaultKeys.

(** * The memory tools (crates/argus-core/src/tools.rs) over the SQLite store *)
Module MemoryTools.
Import Memory.

(** [tools::tool_forget] with [SqliteMemory] as the backend ("❌" is
    U+274C). *)
Definition tool_forget (args : json) (db : Db) : ustr * Db :=
  let content_match := unwrap_or "" (as_str (jidx args "content_match")) in
  match forget db (utf8_decode (string_bytes content_match)) with
  | (Ok msg, db') => (msg, db')
  | (Err e, db') => (10060 :: u " Forget error: " ++ e, db')
  end.

End MemoryTools.

(** * Properties *)

Module ShellProps.
Import Shell.

(** C1 (code_bug). A line with a pipe is decided by the pipe branch, which
    returns before the subshell test: "ls | echo $(rm -rf /)" is accepted
    by the default policy although it contains "$(". *)
Theorem check_pipe_with_subshell_accepted :
  trim (u "ls | echo $(rm -rf /)") <> [] /\
  contains (u "ls | echo $(rm -rf /)") (u "$(") = true /\
  check default_policy (u "ls | echo $(rm -rf /)") = Ok tt.
Proof. vm_compute. split; [discriminate | split; reflexivity]. Qed.

End ShellProps.

Module AgentProps.
Import Scenarios.

(** C10 (code_bug). The ToolResult preview slices the result at byte 100;
    on the valid UTF-8 string "a" followed by fifty "é" (101 bytes) byte
    100 is inside a character and the slice panics. *)
Theorem result_preview_panics_inside_char :
  utf8_valid (map (fun c => Z.of_nat (nat_of_ascii c)) (list_ascii_of_string wide_result)) = true /\
  String.length wide_result = 101%nat /\
  Agent.result_preview wide_result = None.
Proof. vm_compute. split; [reflexivity | split; reflexivity]. Qed.

(** C4 (code_bug). When the request fails, [?] returns the error before any
    [Error] event: the only event of the turn is [Thinking]. *)
Theorem request_failure_emits_no_terminal_event :
  Agent.run_agent_turn unit endpoint_down (builtin_says "") server_fails parse_args show_args
    desc params "system" cfg "hello" no_mcp tt
  = (Some (Err "API request failed: error sending request: connection refused"), tt,
     [Agent.Thinking]).
Proof. vm_compute. reflexivity. Qed.

(** C5 (code_bug). A model that requests [read_file] of "wide.txt" on
    every round, where that file holds [wide_result] (101 bytes, byte 100
    inside a character), which [tool_read_file] returns whole: the turn
    panics at the preview in the first round and never emits the
    max-tool-calls [Response]. *)
Theorem always_tool_turn_panics_on_wide_result :
  parse_read_args read_args = Some (JObj [("path", JStr "wide.txt")]) /\
  tool_read_file wide_files (JObj [("path", JStr "wide.txt")]) = Some wide_result /\
  Agent.run_agent_turn unit endpoint_always_read (builtin_says wide_result) server_fails
    parse_read_args show_args desc params "system" cfg "read wide.txt" no_mcp tt
  = (None, tt, [Agent.Thinking; Agent.ToolCall "read_file" "wide.txt"]).
Proof. vm_compute. split; [reflexivity | split; reflexivity]. Qed.

(** C2 (code_bug). With an external server advertising [web_search], the
    catalog holds one [web_search] descriptor, but the call is served by
    the built-in: [execute_builtin] is tried before the MCP client. *)
Theorem external_web_search_served_by_builtin :
  descriptors_named "web_search" (Agent.build_catalog desc params search_mcp) = 1%nat /\
  Agent.run_agent_turn (list string) endpoint_search_once builtin_logged server_logged
    parse_args show_args desc params "system" cfg "search rust" search_mcp []
  = (Some (Ok "done"), ["builtin:web_search"],
     [Agent.Thinking; Agent.ToolCall "web_search" ""; Agent.ToolResult "web_search" "builtin result";
      Agent.Response "done"]).
Proof. vm_compute. split; reflexivity. Qed.

End AgentProps.

Module VaultProps.
Import Vault.

(** Dummy primitives and an empty, fault-free disk for concrete runs of
    the vault. *)
Definition zero_block (_ _ : bytes) (_ : Z) : bytes := repeat 0 64.
Definition zero_mac (_ _ : bytes) : Z := 0.
Definition empty_disk : disk := mkDisk ∅ (fun _ => None) (fun _ => None).

Lemma in_list_keys (v : SecureVault) (name : string) :
  In name (list_keys v) <-> is_Some (secrets v !! name).
Proof.
  unfold list_keys. rewrite <- list_elem_of_In. change (map fst ?l) with (fst <$> l). rewrite list_elem_of_fmap. split.
  - intros [[k x] [-> Hin]]. apply elem_of_map_to_list in Hin. simpl. eauto.
  - intros [x Hx]. exists (name, x). split; [reflexivity|]. apply elem_of_map_to_list. exact Hx.
Qed.

Lemma list_keys_NoDup (v : SecureVault) : NoDup (list_keys v).
Proof.
  unfold list_keys. change (map fst ?l) with (fst <$> l). apply NoDup_fst_map_to_list.
Qed.

Lemma save_result (v : SecureVault) (d : disk) :
  fst (save v d) = Ok tt \/ exists e, fst (save v d) = Err (Io e).
Proof.
  unfold save, fs_write. destruct (nodes d !! vault_path v) as [[f|]|]; simpl; eauto.
  all: destruct (write_fault d (vault_path v)) as [[e [|]]|]; simpl; eauto.
Qed.

(** C3. On a locked vault (no master key) [store] and [retrieve] fail with
    [Locked] and leave the vault and the disk unchanged, but the other two
    data-path operations do not check the key: [delete] never fails with
    [Locked] (on a new, locked vault it answers [NotFound]), and
    [list_keys] has no failure path: it returns the names of the in-memory
    map, each once, whatever the lock state. *)
Theorem locked_vault_delete_list_not_rejected
    (cb : bytes -> bytes -> Z -> bytes) (poly : bytes -> bytes -> Z)
    (v : SecureVault) (name : string) (secret : bytes) (rng : option bytes) (d : disk)
    (path : string)
    (Hlocked : master_key v = None) :
  store cb poly v name secret rng d = (Err Locked, v, d) /\
  retrieve cb poly v name = Some (Err Locked) /\
  fst (fst (delete v name d)) <> Err Locked /\
  delete (new path) name d = (Err (NotFound name), new path, d) /\
  (forall k, In k (list_keys v) <-> is_Some (secrets v !! k)) /\
  NoDup (list_keys v).
Proof.
  split; [unfold store; rewrite Hlocked; reflexivity|].
  split; [unfold retrieve; rewrite Hlocked; reflexivity|].
  split; [|split; [reflexivity | split; [intros k; apply in_list_keys | apply list_keys_NoDup]]].
  unfold delete. destruct (secrets v !! name); [|discriminate].
  destruct (save_result (mkVault (master_key v) (vault_path v) (base.delete name (secrets v))) d)
    as [H | [e H]];
  destruct (save _ d) as [r d']; simpl in *; rewrite H; discriminate.
Qed.

Lemma locked_vault_delete_list_not_rejected_witness :
  master_key (mkVault None "vault.enc" (<["api_key" := repeat 0 20]> ∅)) = None /\
  delete (mkVault None "vault.enc" (<["api_key" := repeat 0 20]> ∅)) "api_key" empty_disk
    = (Ok tt, mkVault None "vault.enc" ∅,
       mkDisk (<["vault.enc" := File (Secrets ∅)]> ∅) (fun _ => None) (fun _ => None)) /\
  list_keys (mkVault None "vault.enc" (<["api_key" := repeat 0 20]> ∅)) = ["api_key"] /\
  delete (new "vault.enc") "api_key" empty_disk
    = (Err (NotFound "api_key"), new "vault.enc", empty_disk).
Proof.
  split; [reflexivity|].
  split; [vm_compute; reflexivity|].
  split; [vm_compute; reflexivity|].
  apply (locked_vault_delete_list_not_rejected zero_block zero_mac
           (mkVault None "vault.enc" (<["api_key" := repeat 0 20]> ∅)) "api_key" [118] None
           empty_disk "vault.enc").
  reflexivity.
Defined.

End VaultProps.

Module CipherProps.
Import Cipher.

Section Primitives.
Variable cb : bytes -> bytes -> Z -> bytes.
Variable poly : bytes -> bytes -> Z.

Lemma length_xor_bytes (d ks : bytes) : length (xor_bytes d ks) = length d.
Proof.
  revert ks; induction d as [|x d IH]; intros [|k ks]; simpl; rewrite ?IH; reflexivity.
Qed.

Lemma xor_bytes_involutive (d ks : bytes) : xor_bytes (xor_bytes d ks) ks = d.
Proof.
  revert ks; induction d as [|x d IH]; intros [|k ks]; simpl.
  - reflexivity.
  - reflexivity.
  - rewrite !Z.lxor_0_r, IH. reflexivity.
  - rewrite Z.lxor_assoc, Z.lxor_nilpotent, Z.lxor_0_r, IH. reflexivity.
Qed.

Lemma length_le_bytes (n : nat) (z : Z) : length (le_bytes n z) = n.
Proof. revert z; induction n as [|n IH]; intros z; simpl; rewrite ?IH; reflexivity. Qed.

Lemma aead_roundtrip (key nonce pt : bytes)
    (Hlim : Z.of_nat (length pt) / Z.of_nat BLOCK_SIZE < MAX_BLOCKS) :
  exists ctt, aead_encrypt cb poly key nonce pt = Ok ctt /\
              aead_decrypt cb poly key nonce ctt = Ok pt.
Proof.
  unfold aead_encrypt.
  destruct (Z.leb_spec MAX_BLOCKS (Z.of_nat (length pt) / Z.of_nat BLOCK_SIZE)) as [H|_];
    [lia|].
  eexists; split; [reflexivity|].
  set (ct := xor_bytes pt (keystream cb key nonce (length pt))).
  assert (Hct : length ct = length pt) by apply length_xor_bytes.
  set (tag := compute_tag cb poly key nonce [] ct).
  assert (Htag : length tag = TAG_SIZE) by apply length_le_bytes.
  unfold aead_decrypt. rewrite length_app, Htag.
  replace (length ct + TAG_SIZE - TAG_SIZE)%nat with (length ct) by lia.
  rewrite take_app_length, drop_app_length.
  destruct (Nat.ltb_spec (length ct + TAG_SIZE) TAG_SIZE) as [H|_]; [lia|].
  rewrite Hct.
  destruct (Z.leb_spec MAX_BLOCKS (Z.of_nat (length pt) / Z.of_nat BLOCK_SIZE)) as [H|_];
    [lia|].
  rewrite bool_decide_eq_true_2 by reflexivity.
  unfold ct. rewrite xor_bytes_involutive. reflexivity.
Qed.
End Primitives.

(** C7 (amended). For every primitive pair, every 32-byte key, every
    12-byte nonce the RNG samples and every plaintext below the AEAD's
    [u32::MAX]-block limit (2^38 - 64 bytes), [encrypt] succeeds and
    [decrypt] of its output returns the plaintext. *)
Theorem cipher_roundtrip
    (cb : bytes -> bytes -> Z -> bytes) (poly : bytes -> bytes -> Z)
    (key nonce p : bytes)
    (Hkey : length key = KEY_SIZE) (Hnonce : length nonce = NONCE_SIZE)
    (Hlen : Z.of_nat (length p) < 2 ^ 38 - 64) :
  exists blob, encrypt cb poly key p nonce = Ok blob /\ decrypt cb poly key blob = Ok p.
Proof.
  assert (Hlim : Z.of_nat (length p) / Z.of_nat BLOCK_SIZE < MAX_BLOCKS).
  { unfold BLOCK_SIZE, MAX_BLOCKS. apply Z.div_lt_upper_bound; lia. }
  destruct (aead_roundtrip cb poly key nonce p Hlim) as [ctt [Henc Hdec]].
  exists (nonce ++ ctt). unfold encrypt, decrypt.
  rewrite Hkey, Henc. simpl Nat.eqb. cbn [negb].
  rewrite length_app, Hnonce.
  destruct (Nat.ltb_spec (NONCE_SIZE + length ctt) NONCE_SIZE) as [H|_];
    [unfold NONCE_SIZE in *; lia|].
  rewrite <- Hnonce, take_app_length, drop_app_length, Hdec.
  split; reflexivity.
Qed.

Lemma cipher_roundtrip_witness :
  length (repeat 7 32) = KEY_SIZE /\ length (repeat 1 12) = NONCE_SIZE /\
  Z.of_nat (length [104; 105]) < 2 ^ 38 - 64 /\
  exists blob, encrypt VaultProps.zero_block VaultProps.zero_mac (repeat 7 32) [104; 105]
                 (repeat 1 12) = Ok blob /\
               decrypt VaultProps.zero_block VaultProps.zero_mac (repeat 7 32) blob
                 = Ok [104; 105].
Proof.
  split; [reflexivity|]. split; [reflexivity|]. split; [vm_compute; reflexivity|].
  apply (cipher_roundtrip VaultProps.zero_block VaultProps.zero_mac (repeat 7 32)
           (repeat 1 12) [104; 105]); [reflexivity | reflexivity | vm_compute; reflexivity].
Defined.

(** C7 (counterexample). A plaintext of 2^38 - 64 bytes reaches the AEAD's
    block limit: [encrypt] fails, so there is no ciphertext to decrypt. *)
Lemma encrypt_fails_at_block_limit :
  encrypt VaultProps.zero_block VaultProps.zero_mac (repeat 0 32)
    (repeat 0 (Z.to_nat (2 ^ 38 - 64))) (repeat 0 12) = Err EncryptionFailed.
Proof.
  unfold encrypt, aead_encrypt.
  rewrite !repeat_length, Z2Nat.id by lia.
  reflexivity.
Qed.

End CipherProps.

Module MemoryProps.
Import Memory.

(** [m] holds no LIKE wildcard ('%' or '_'). *)
Definition no_wildcards (m : ustr) : bool :=
  forallb (fun c => negb (c =? 37) && negb (c =? 95)) m.

(** Substring test up to ASCII case. *)
Definition ci_contains (s m : ustr) : bool :=
  contains (map ascii_fold s) (map ascii_fold m).

Lemma like_pct_cons (q : ustr) (x : Z) (s : ustr) :
  like (37 :: q) (x :: s) = like q (x :: s) || like (37 :: q) s.
Proof. reflexivity. Qed.

Lemma like_pct_nil (q : ustr) : like (37 :: q) [] = like q [].
Proof. simpl. destruct (like q []); reflexivity. Qed.

Lemma like_trailing_pct (s : ustr) : like [37] s = true.
Proof.
  induction s as [|x s IH]; [reflexivity|].
  rewrite like_pct_cons, IH. apply orb_true_r.
Qed.

Lemma like_literal_prefix (m s : ustr) :
  no_wildcards m = true ->
  like (m ++ [37]) s = starts_with (map ascii_fold m) (map ascii_fold s).
Proof.
  revert s; induction m as [|c m IH]; intros s Hm.
  - simpl app. rewrite like_trailing_pct. reflexivity.
  - simpl in Hm. apply andb_true_iff in Hm as [Hc Hm].
    apply andb_true_iff in Hc as [H37 H95].
    apply negb_true_iff in H37, H95.
    destruct s as [|x s]; simpl app; simpl like; rewrite H37; [reflexivity|].
    rewrite H95, orb_false_l, IH by exact Hm. reflexivity.
Qed.

Lemma like_pattern_ci_contains (m s : ustr) :
  no_wildcards m = true -> like (like_pattern m) s = ci_contains s m.
Proof.
  intros Hm. unfold like_pattern, ci_contains. simpl app.
  induction s as [|x s IH].
  - rewrite like_pct_nil, like_literal_prefix by exact Hm.
    destruct (map ascii_fold m); reflexivity.
  - rewrite like_pct_cons, IH, like_literal_prefix by exact Hm. reflexivity.
Qed.

(** [m] holds no NUL character. *)
Definition no_nul (m : ustr) : bool := forallb (fun c => negb (c =? 0)) m.

Lemma before_nul_id (m : ustr) : no_nul m = true -> before_nul m = m.
Proof.
  induction m as [|c m IH]; intros H; [reflexivity|].
  simpl in H |- *. apply andb_true_iff in H as [Hc H]. apply negb_true_iff in Hc.
  rewrite Hc, IH by exact H. reflexivity.
Qed.

Lemma before_nul_like_pattern (m : ustr) :
  no_nul m = true -> before_nul (like_pattern m) = like_pattern m.
Proof.
  intros H. apply before_nul_id. unfold no_nul, like_pattern in *.
  rewrite !forallb_app, H. reflexivity.
Qed.

Lemma before_nul_prefix (s : ustr) : exists t, s = before_nul s ++ t.
Proof.
  induction s as [|c s [t Ht]]; [exists []; reflexivity|].
  simpl. destruct (c =? 0); [exists (c :: s); reflexivity|].
  exists t. simpl. rewrite <- Ht. reflexivity.
Qed.

Lemma starts_with_extend (n a b : ustr) :
  starts_with n a = true -> starts_with n (a ++ b) = true.
Proof.
  revert a; induction n as [|x n IH]; intros a H; [reflexivity|].
  destruct a as [|y a]; [discriminate|].
  simpl in H |- *. apply andb_true_iff in H as [Hxy H]. rewrite Hxy, IH by exact H. reflexivity.
Qed.

Lemma contains_app (a b n : ustr) :
  contains a n = true -> contains (a ++ b) n = true.
Proof.
  induction a as [|x a IH]; intros H.
  - destruct n as [|y n]; [destruct b; reflexivity | discriminate].
  - change ((x :: a) ++ b) with (x :: (a ++ b)).
    simpl in H. apply orb_true_iff in H as [H|H]; simpl; apply orb_true_iff.
    + left. change (x :: a ++ b) with ((x :: a) ++ b). apply starts_with_extend, H.
    + right. apply IH, H.
Qed.

Lemma ci_contains_before_nul (s m : ustr) :
  ci_contains (before_nul s) m = true -> ci_contains s m = true.
Proof.
  unfold ci_contains. destruct (before_nul_prefix s) as [t Ht]. rewrite Ht at 2.
  rewrite map_app. apply contains_app.
Qed.

Lemma utf8_like_pattern_length (m : ustr) :
  Z.of_nat (length (utf8_encode (like_pattern m))) = Z.of_nat (length (utf8_encode m)) + 2.
Proof.
  unfold utf8_encode, like_pattern. rewrite !flat_map_app, !length_app. cbn. lia.
Qed.

Lemma like_sql_fits (pat s : ustr) :
  Z.of_nat (length (utf8_encode pat)) <= LIKE_PATTERN_LIMIT ->
  like_sql pat s = Ok (like (before_nul pat) (before_nul s)).
Proof.
  intros H. unfold like_sql.
  destruct (Z.ltb_spec LIKE_PATTERN_LIMIT (Z.of_nat (length (utf8_encode pat)))); [lia | reflexivity].
Qed.

Lemma like_sql_ok (pat s : ustr) (b : bool) :
  like_sql pat s = Ok b -> like (before_nul pat) (before_nul s) = b.
Proof. unfold like_sql. destruct (_ <? _); intros H; [discriminate | congruence]. Qed.

Lemma like_sql_query (q s : ustr) :
  Z.of_nat (length (utf8_encode q)) <= 49998 ->
  like_sql (like_pattern q) s = Ok (like (before_nul (like_pattern q)) (before_nul s)).
Proof.
  intros H. apply like_sql_fits. rewrite utf8_like_pattern_length. unfold LIKE_PATTERN_LIMIT. lia.
Qed.

Lemma like_sql_query_long (q s : ustr) :
  49999 <= Z.of_nat (length (utf8_encode q)) ->
  like_sql (like_pattern q) s = Err msg_pattern_too_complex.
Proof.
  intros H. unfold like_sql. rewrite utf8_like_pattern_length.
  destruct (Z.ltb_spec LIKE_PATTERN_LIMIT (Z.of_nat (length (utf8_encode q)) + 2));
    [reflexivity | unfold LIKE_PATTERN_LIMIT in *; lia].
Qed.

Lemma delete_where_ok (p : MemRow -> result bool ustr) (f : MemRow -> bool) (l : list MemRow) :
  (forall r, p r = Ok (f r)) ->
  delete_where p l = Ok (List.filter (fun r => negb (f r)) l, length (List.filter f l)).
Proof.
  intros H. induction l as [|r l IH]; [reflexivity|].
  simpl. rewrite H, IH. destruct (f r); reflexivity.
Qed.

Lemma delete_where_err (p : MemRow -> result bool ustr) (e : ustr) (l : list MemRow) :
  l <> [] -> (forall r, p r = Err e) -> delete_where p l = Err e.
Proof. intros Hl H. destruct l as [|r l]; [congruence|]. simpl. rewrite H. reflexivity. Qed.

Lemma select_where_ok (p : MemRow -> result bool ustr) (f : MemRow -> bool) (l : list MemRow) :
  (forall r, p r = Ok (f r)) -> select_where p l = Ok (List.filter f l).
Proof.
  intros H. induction l as [|r l IH]; [reflexivity|].
  simpl. rewrite H, IH. destruct (f r); reflexivity.
Qed.

Lemma select_where_err_nil (p : MemRow -> result bool ustr) (l k : list MemRow) :
  (forall r, exists e, p r = Err e) -> select_where p l = Ok k -> k = [].
Proof.
  intros H. destruct l as [|r l]; simpl; [congruence|].
  destruct (H r) as [e ->]. discriminate.
Qed.

Lemma select_where_sub (p : MemRow -> result bool ustr) (l k : list MemRow) :
  select_where p l = Ok k -> forall r, In r k -> In r l /\ p r = Ok true.
Proof.
  revert k; induction l as [|x l IH]; intros k H r Hr; simpl in H.
  - injection H as <-. contradiction.
  - destruct (p x) as [b|e] eqn:Hx; [|discriminate].
    destruct (select_where p l) as [k'|e] eqn:Hs; [|discriminate]. injection H as <-.
    assert (Hrest : In r k' -> In r (x :: l) /\ p r = Ok true)
      by (intros Hr'; destruct (IH k' eq_refl r Hr') as [H1 H2]; split; [right|]; assumption).
    destruct b; [destruct Hr as [<-|Hr]; [split; [left; reflexivity | exact Hx] | apply Hrest, Hr]|].
    apply Hrest, Hr.
Qed.

Lemma select_where_length (p : MemRow -> result bool ustr) (l k : list MemRow) :
  select_where p l = Ok k -> (length k <= length l)%nat.
Proof.
  revert k; induction l as [|x l IH]; intros k H; simpl in H.
  - injection H as <-. reflexivity.
  - destruct (p x) as [b|e]; [|discriminate].
    destruct (select_where p l) as [k'|e] eqn:Hs; [|discriminate]. injection H as <-.
    specialize (IH k' eq_refl). destruct b; simpl; lia.
Qed.

(** C6 (amended). For a match string with no LIKE wildcard and no NUL
    character, of at most 49998 UTF-8 bytes, [forget] deletes exactly the
    rows whose content, read up to its first NUL, contains it up to ASCII
    case, keeps the other rows in order, and reports the number deleted.
    A longer match string makes a LIKE pattern above SQLite's limit: on a
    non-empty table [forget] then fails and deletes nothing. *)
Theorem forget_deletes_case_insensitive_matches (db : Db) (m : ustr)
    (Hm : no_wildcards m = true) (Hnul : no_nul m = true) :
  (Z.of_nat (length (utf8_encode m)) <= 49998 ->
   forget db m =
    (Ok (msg_forgot (length (List.filter (fun r => ci_contains (before_nul (content r)) m) (rows db)))),
     mkDb (List.filter (fun r => negb (ci_contains (before_nul (content r)) m)) (rows db))
          (next_id db))) /\
  (49999 <= Z.of_nat (length (utf8_encode m)) -> rows db <> [] ->
   forget db m = (Err (u "Failed to forget: " ++ msg_pattern_too_complex), db)).
Proof.
  unfold forget. cbv zeta. split.
  - intros Hfit.
    rewrite (delete_where_ok _ (fun r => ci_contains (before_nul (content r)) m)); [reflexivity|].
    intros r. rewrite like_sql_query by exact Hfit.
    rewrite before_nul_like_pattern, like_pattern_ci_contains by assumption. reflexivity.
  - intros Hlong Hne. rewrite (delete_where_err _ msg_pattern_too_complex); [reflexivity | exact Hne |].
    intros r. apply like_sql_query_long, Hlong.
Qed.

Definition row (i : Z) (c : string) (imp created : Z) : MemRow :=
  mkRow i (u "fact") (u c) None imp created created.

Lemma forget_deletes_case_insensitive_matches_witness :
  no_wildcards (u "rust") = true /\ no_nul (u "rust") = true /\
  Z.of_nat (length (utf8_encode (u "rust"))) <= 49998 /\
  forget (mkDb [row 1 "User likes Rust" 8 100; row 2 "Dark mode" 6 101] 3) (u "rust")
  = (Ok (msg_forgot 1), mkDb [row 2 "Dark mode" 6 101] 3).
Proof.
  assert (Hfit : Z.of_nat (length (utf8_encode (u "rust"))) <= 49998) by (vm_compute; discriminate).
  split; [reflexivity|]. split; [reflexivity|]. split; [exact Hfit|].
  rewrite (proj1 (forget_deletes_case_insensitive_matches _ (u "rust") eq_refl eq_refl) Hfit).
  vm_compute. reflexivity.
Defined.

(** C6 (counterexample). "apple" is not a substring of "Apple pie", yet
    [forget "apple"] deletes that row: LIKE folds ASCII case. *)
Lemma forget_apple_deletes_Apple :
  contains (u "Apple pie") (u "apple") = false /\
  forget (mkDb [row 1 "Apple pie" 5 100] 2) (u "apple") = (Ok (msg_forgot 1), mkDb [] 2).
Proof. vm_compute. split; reflexivity. Qed.

(** Rows holding content [c]. *)
Definition rows_with (c : ustr) (l : list MemRow) : list MemRow :=
  List.filter (fun r => ustr_eqb (content r) c) l.
Definition rows_without (c : ustr) (l : list MemRow) : list MemRow :=
  List.filter (fun r => negb (ustr_eqb (content r) c)) l.

Definition raised (imp now : Z) (r : MemRow) : MemRow :=
  mkRow (id r) (memory_type r) (content r) (reasoning r)
        (Z.max (importance r) imp) (created_at r) now.

(** C8 (amended). When a row with content [c] exists, [remember] inserts
    nothing: the rows without [c] are unchanged, every row with [c] gets
    importance [max old new] and [updated_at] the current [datetime('now')]
    (other fields kept), so the number of rows with [c] is unchanged. *)
Theorem remember_existing_updates_in_place (db : Db) (mt c : ustr) (rs : option ustr)
    (imp now : Z)
    (Hex : existsb (fun r => ustr_eqb (content r) c) (rows db) = true) :
  let '(res, db') := remember db mt c rs imp now in
  res = Ok msg_updated /\
  next_id db' = next_id db /\
  length (rows db') = length (rows db) /\
  rows_with c (rows db') = map (raised imp now) (rows_with c (rows db)) /\
  rows_without c (rows db') = rows_without c (rows db) /\
  length (rows_with c (rows db')) = length (rows_with c (rows db)).
Proof.
  unfold remember. rewrite Hex. cbn -[rows_with rows_without].
  assert (Hw : rows_with c (map (fun r => if ustr_eqb (content r) c then raised imp now r else r)
                               (rows db))
               = map (raised imp now) (rows_with c (rows db))).
  { clear Hex. unfold rows_with. induction (rows db) as [|r l IH]; [reflexivity|].
    simpl. destruct (ustr_eqb (content r) c) eqn:E; simpl.
    - rewrite E, IH. reflexivity.
    - rewrite E, IH. reflexivity. }
  assert (Hwo : rows_without c (map (fun r => if ustr_eqb (content r) c then raised imp now r else r)
                                   (rows db))
                = rows_without c (rows db)).
  { clear Hex Hw. unfold rows_without. induction (rows db) as [|r l IH]; [reflexivity|].
    simpl. destruct (ustr_eqb (content r) c) eqn:E; simpl.
    - rewrite E, IH. reflexivity.
    - rewrite E, IH. reflexivity. }
  repeat split.
  - apply length_map.
  - exact Hw.
  - exact Hwo.
  - transitivity (length (map (raised imp now) (rows_with c (rows db))));
      [f_equal; exact Hw | apply length_map].
Qed.

Definition db_x : Db := mkDb [row 1 "X" 3 100] 2.

Lemma remember_existing_updates_in_place_witness :
  existsb (fun r => ustr_eqb (content r) (u "X")) (rows db_x) = true /\
  remember db_x (u "fact") (u "X") None 8 160 = (Ok msg_updated, mkDb [raised 8 160 (row 1 "X" 3 100)] 2).
Proof.
  split; [reflexivity|].
  pose proof (remember_existing_updates_in_place db_x (u "fact") (u "X") None 8 160 eq_refl)
    as H.
  vm_compute in H |- *. reflexivity.
Defined.

(** C8 (counterexample). Two calls within the same second: the second
    [remember] of "X" leaves [updated_at] at 100, it does not advance. *)
Lemma remember_same_second_updated_at_unchanged :
  remember db_x (u "fact") (u "X") None 8 100
  = (Ok msg_updated, mkDb [mkRow 1 (u "fact") (u "X") None 8 100 100] 2).
Proof. vm_compute. reflexivity. Qed.

End MemoryProps.

Module RecallProps.
Import Memory.

Lemma insert_desc_perm (r : MemRow) (l : list MemRow) :
  Permutation (insert_desc r l) (r :: l).
Proof.
  induction l as [|x l IH]; simpl; [reflexivity|].
  destruct (importance x <? importance r); [reflexivity|].
  rewrite IH. apply perm_swap.
Qed.

Lemma sort_desc_perm (l : list MemRow) : Permutation (sort_desc l) l.
Proof.
  unfold sort_desc.
  transitivity (rev l); [|symmetry; apply Permutation_rev].
  induction (rev l) as [|x k IH]; simpl; [reflexivity|].
  rewrite insert_desc_perm, IH. reflexivity.
Qed.

Lemma insert_desc_sorted (r : MemRow) (l : list MemRow) :
  Sorted importance_desc l -> Sorted importance_desc (insert_desc r l).
Proof.
  induction l as [|x l IH]; intros Hs; simpl.
  - constructor; constructor.
  - destruct (Z.ltb_spec (importance x) (importance r)) as [Hlt|Hge].
    + constructor; [exact Hs|]. constructor. unfold importance_desc. lia.
    + apply Sorted_inv in Hs as [Hs Hhd].
      constructor; [apply IH, Hs|].
      destruct l as [|y l]; simpl.
      * constructor. unfold importance_desc. lia.
      * destruct (importance y <? importance r); constructor;
          [unfold importance_desc; lia|].
        inversion Hhd; assumption.
Qed.

Lemma sort_desc_sorted (l : list MemRow) : Sorted importance_desc (sort_desc l).
Proof.
  unfold sort_desc. induction (rev l) as [|x k IH]; simpl.
  - constructor.
  - apply insert_desc_sorted, IH.
Qed.

(** The arrangement SQLite returns is one of the results the query allows. *)
Lemma recall_is_a_result (db : Db) (query mt : option ustr) (limit : nat) :
  recall_result db query mt limit (recall db query mt limit).
Proof.
  unfold recall_result, recall.
  destruct (select_where (recall_where query mt) (rows db)) as [selected|e]; [|reflexivity].
  exists (sort_desc selected).
  split; [apply sort_desc_perm|]. split; [apply sort_desc_sorted|]. reflexivity.
Qed.

Lemma sorted_take {A} (R : A -> A -> Prop) (n : nat) (l : list A) :
  Sorted R l -> Sorted R (take n l).
Proof.
  revert l; induction n as [|n IH]; intros l Hs; [constructor|].
  destruct l as [|x l]; simpl; [constructor|].
  apply Sorted_inv in Hs as [Hs Hhd].
  constructor; [apply IH, Hs|].
  destruct n; [constructor|]. destruct l; simpl; [constructor|].
  inversion Hhd; constructor; assumption.
Qed.

Lemma sorted_map {A B} (R : B -> B -> Prop) (f : A -> B) (l : list A) :
  Sorted (fun a b => R (f a) (f b)) l -> Sorted R (map f l).
Proof.
  induction l as [|x l IH]; intros Hs; simpl; [constructor|].
  apply Sorted_inv in Hs as [Hs Hhd].
  constructor; [apply IH, Hs|].
  destruct l; simpl; [constructor|]. inversion Hhd; constructor; assumption.
Qed.

Definition importance_desc_rec (a b : MemoryRecord) : Prop :=
  rec_importance b <= rec_importance a.

(** The order the claim states: importance descending, then [created_at]
    descending. *)
Definition importance_then_created_desc (a b : MemoryRecord) : Prop :=
  rec_importance b < rec_importance a \/
  (rec_importance b = rec_importance a /\ rec_created_at b <= rec_created_at a).

(** C9 (amended). Every result of [recall] has at most [limit] rows (the
    table holding fewer than 2^63 rows, as SQLite rowids allow) and is
    sorted by importance descending; the query leaves the order of rows of
    equal importance open. *)
Theorem recall_bounded_importance_sorted (db : Db) (query mt : option ustr) (limit : nat)
    (res : list MemoryRecord)
    (Hrows : Z.of_nat (length (rows db)) < 2 ^ 63)
    (Hres : recall_result db query mt limit res) :
  (length res <= limit)%nat /\ Sorted importance_desc_rec res.
Proof.
  unfold recall_result in Hres.
  destruct (select_where (recall_where query mt) (rows db)) as [selected|e] eqn:Hs;
    [|subst res; split; [simpl; lia | constructor]].
  destruct Hres as [ordered [Hperm [Hsorted ->]]].
  split.
  - rewrite length_map.
    assert (Hlen : (length ordered <= length (rows db))%nat).
    { rewrite (Permutation_length Hperm). apply (MemoryProps.select_where_length _ _ _ Hs). }
    unfold apply_limit, sql_limit.
    pose proof (Z.mod_pos_bound (Z.of_nat limit) (2 ^ 64) ltac:(lia)) as Hb.
    pose proof (Z.mod_le (Z.of_nat limit) (2 ^ 64) ltac:(lia) ltac:(lia)) as Hle.
    destruct (Z.ltb_spec (Z.of_nat limit mod 2 ^ 64) (2 ^ 63)) as [Hlt|Hge].
    + rewrite length_take. lia.
    + lia.
  - apply sorted_map.
    destruct (sql_limit limit) as [n|]; simpl; [apply sorted_take|]; exact Hsorted.
Qed.

Definition row (i : Z) (c : string) (imp created : Z) : MemRow :=
  mkRow i (u "fact") (u c) None imp created created.

(** Two facts of equal importance, the second created later. *)
Definition db_ties : Db := mkDb [row 1 "a" 5 100; row 2 "b" 5 200] 3.

Lemma recall_bounded_importance_sorted_witness :
  Z.of_nat (length (rows db_ties)) < 2 ^ 63 /\
  recall_result db_ties None None 10 (recall db_ties None None 10) /\
  (length (recall db_ties None None 10) <= 10)%nat /\
  Sorted importance_desc_rec (recall db_ties None None 10).
Proof.
  assert (H1 : Z.of_nat (length (rows db_ties)) < 2 ^ 63) by (vm_compute; reflexivity).
  pose proof (recall_is_a_result db_ties None None 10) as H2.
  split; [exact H1|]. split; [exact H2|].
  apply (recall_bounded_importance_sorted db_ties None None 10 _ H1 H2).
Defined.

(** C9 (counterexample). On [db_ties], the rows in rowid order, which is
    what SQLite returns, form a valid result of the query: the older row
    comes first, so equal importances are not in [created_at] descending
    order. *)
Lemma recall_ties_not_created_desc :
  recall db_ties None None 10 = map to_record [row 1 "a" 5 100; row 2 "b" 5 200] /\
  recall_result db_ties None None 10 (recall db_ties None None 10) /\
  ~ Sorted importance_then_created_desc (recall db_ties None None 10).
Proof.
  assert (Hr : recall db_ties None None 10
               = map to_record [row 1 "a" 5 100; row 2 "b" 5 200])
    by (vm_compute; reflexivity).
  split; [exact Hr|]. split; [apply recall_is_a_result|].
  rewrite Hr. simpl map. intros Hs. apply Sorted_inv in Hs as [_ Hhd].
  inversion Hhd as [|? ? Hb]; subst. unfold importance_then_created_desc in Hb.
  simpl in Hb. lia.
Qed.

End RecallProps.

Module AgentLoopProps.
Import Agent.

Definition is_tool_event (e : AgentEvent) : Prop :=
  match e with ToolCall _ _ | ToolResult _ _ => True | _ => False end.

(** The [tool_calls] array of [choices[0].message], as the loop reads it. *)
Definition tool_calls_of (j : json) : option (list json) :=
  match jget (jidx (jidx_n (jidx j "choices") 0) "message") "tool_calls" with
  | Some tc => as_array tc
  | None => None
  end.

Section AlwaysTools.
Context {W : Type}.
Variable endpoint : string -> string -> json -> W -> api_outcome * W.
Variable run_builtin : string -> json -> W -> string * W.
Variable server_call : string -> string -> json -> W -> result string string * W.
Variable from_str : string -> option json.
Variable to_string : json -> string.
Variable builtin_description : string -> string.
Variable builtin_parameters : string -> json.
Variable SYSTEM_PROMPT : string.

(** The model asks for at least one tool on every round. *)
Hypothesis always_tools : forall url auth body w,
  exists j w', endpoint url auth body w = (Received j, w') /\ jget j "error" = None /\
               exists c cs, tool_calls_of j = Some (c :: cs).

(** No tool result makes the preview slice panic. *)
Hypothesis previews_total : forall mcp name args w evs s w' evs',
  dispatch W run_builtin server_call mcp name args w evs = (Next s, w', evs') ->
  result_preview s <> None.

Lemma dispatch_next mcp name args w evs :
  exists s w', dispatch W run_builtin server_call mcp name args w evs = (Next s, w', evs).
Proof.
  unfold dispatch, bind, lift.
  destruct (execute_builtin W run_builtin name args w) as [[out|] w1]; [eauto|].
  destruct (mcp_call_tool W server_call mcp name args w1) as [[out|e] w2]; eauto.
Qed.

Lemma run_tool_call_next mcp msgs tc w evs :
  exists msgs' w' new, run_tool_call W run_builtin server_call from_str to_string mcp msgs tc w evs
                       = (Next msgs', w', evs ++ new) /\ Forall is_tool_event new.
Proof.
  unfold run_tool_call. cbv zeta. unfold bind at 1, emit at 1.
  match goal with |- context [bind W (dispatch W run_builtin server_call mcp ?n ?a) _ ?w0 ?e0] =>
    destruct (dispatch_next mcp n a w0 e0) as [s [w' Hd]]; unfold bind at 1; rewrite Hd;
    pose proof (previews_total mcp n a w0 e0 s w' e0 Hd) as Hp
  end.
  destruct (result_preview s) as [rp|] eqn:Ep; [|congruence].
  unfold bind, emit, ret.
  eexists _, _, [_; _]. rewrite <- app_assoc. split; [reflexivity|].
  repeat constructor.
Qed.

Lemma run_tool_calls_next mcp calls : forall msgs w evs,
  exists msgs' w' new, run_tool_calls W run_builtin server_call from_str to_string mcp msgs calls w evs
                       = (Next msgs', w', evs ++ new) /\ Forall is_tool_event new.
Proof.
  induction calls as [|tc calls IH]; intros msgs w evs.
  - exists msgs, w, []. rewrite app_nil_r. split; [reflexivity | constructor].
  - simpl. unfold bind at 1.
    destruct (run_tool_call_next mcp msgs tc w evs) as [m1 [w1 [n1 [H1 F1]]]].
    rewrite H1.
    destruct (IH m1 w1 (evs ++ n1)) as [m2 [w2 [n2 [H2 F2]]]].
    rewrite H2, <- app_assoc. exists m2, w2, (n1 ++ n2).
    split; [reflexivity | apply Forall_app; split; assumption].
Qed.

Lemma round_next config mcp schemas msgs w evs :
  exists msgs' w' new,
    round W endpoint run_builtin server_call from_str to_string config mcp schemas msgs w evs
    = (Next msgs', w', evs ++ new) /\ Forall is_tool_event new.
Proof.
  unfold round, bind at 1, lift.
  match goal with |- context [endpoint ?a ?b ?c w] =>
    destruct (always_tools a b c w) as [j [w1 [He [Herr [c0 [cs Hc]]]]]]; rewrite He
  end.
  cbv zeta. rewrite Herr. unfold tool_calls_of in Hc. rewrite Hc.
  apply run_tool_calls_next.
Qed.

Lemma rounds_next n config mcp schemas : forall msgs w evs,
  exists msgs' w' new,
    rounds W endpoint run_builtin server_call from_str to_string n config mcp schemas msgs w evs
    = (Next msgs', w', evs ++ new) /\ Forall is_tool_event new.
Proof.
  induction n as [|n IH]; intros msgs w evs.
  - exists msgs, w, []. rewrite app_nil_r. split; [reflexivity | constructor].
  - simpl. unfold bind at 1.
    destruct (round_next config mcp schemas msgs w evs) as [m1 [w1 [n1 [H1 F1]]]].
    rewrite H1.
    destruct (IH m1 w1 (evs ++ n1)) as [m2 [w2 [n2 [H2 F2]]]].
    rewrite H2, <- app_assoc. exists m2, w2, (n1 ++ n2).
    split; [reflexivity | apply Forall_app; split; assumption].
Qed.

(** With a model that always requests tools and tool results that never
    make the preview panic, the turn runs all [MAX_TOOL_ROUNDS] rounds
    and ends with the max-tool-calls [Response], which it returns; the
    events between [Thinking] and it are tool events. *)
Lemma always_tools_reach_round_limit config user_message mcp w :
  exists w' evs,
    run_agent_turn W endpoint run_builtin server_call from_str to_string
      builtin_description builtin_parameters SYSTEM_PROMPT config user_message mcp w
    = (Some (Ok max_rounds_message), w', [Thinking] ++ evs ++ [Response max_rounds_message]) /\
    Forall is_tool_event evs.
Proof.
  unfold run_agent_turn, turn. cbv zeta. unfold bind at 1, emit at 1.
  unfold bind at 1.
  match goal with |- context [rounds W endpoint run_builtin server_call from_str to_string
                                MAX_TOOL_ROUNDS config mcp ?s ?m w ?e] =>
    destruct (rounds_next MAX_TOOL_ROUNDS config mcp s m w e) as [m1 [w1 [n1 [H1 F1]]]];
    rewrite H1
  end.
  exists w1, n1. split; [|exact F1].
  unfold bind, emit, exit. rewrite <- app_assoc. reflexivity.
Qed.
End AlwaysTools.

(** With short ASCII tool results the always-tool model of C5 runs the ten
    rounds: a world counting requests ends at 10, and the turn returns the
    max-tool-calls message after 1 + 10 * 2 + 1 events. *)
Definition counting_endpoint (_ _ : string) (_ : json) (n : nat) : api_outcome * nat :=
  (Received (Scenarios.tool_reply [Scenarios.call_json "call_1" "list_directory" "{}"]), S n).

Example always_tool_ascii_ten_rounds :
  let '(r, requests, evs) :=
    run_agent_turn nat counting_endpoint (Scenarios.builtin_says "file.txt")
      Scenarios.server_fails Scenarios.parse_args Scenarios.show_args
      Scenarios.desc Scenarios.params "system" Scenarios.cfg "list my files"
      Scenarios.no_mcp 0%nat in
  r = Some (Ok max_rounds_message) /\ requests = 10%nat /\ length evs = 22%nat /\
  last evs = Some (Response max_rounds_message).
Proof. vm_compute. repeat split. Qed.

End AgentLoopProps.

Module ShellExtraProps.
Import Shell ShellExec.

Lemma trim_start_all_ws (s : ustr) : forallb is_whitespace s = true -> trim_start s = [].
Proof.
  induction s as [|c s IH]; simpl; [reflexivity|].
  intros H. apply andb_true_iff in H as [Hc Hs]. rewrite Hc. apply IH, Hs.
Qed.

Lemma trim_start_nil_all_ws (s : ustr) : trim_start s = [] -> forallb is_whitespace s = true.
Proof.
  induction s as [|c s IH]; simpl; [reflexivity|].
  destruct (is_whitespace c); simpl; [exact IH | discriminate].
Qed.

Lemma trim_start_head (s : ustr) :
  trim_start s = [] \/ exists c t, trim_start s = c :: t /\ is_whitespace c = false.
Proof.
  induction s as [|c s IH]; simpl; [left; reflexivity|].
  destruct (is_whitespace c) eqn:E; [exact IH|]. right. eauto.
Qed.

Lemma forallb_rev_eq {A} (f : A -> bool) (l : list A) : forallb f (rev l) = forallb f l.
Proof.
  induction l as [|x l IH]; simpl; [reflexivity|].
  rewrite forallb_app, IH. simpl. rewrite andb_true_r, andb_comm. reflexivity.
Qed.

Lemma trim_nil_iff (s : ustr) : trim s = [] <-> forallb is_whitespace s = true.
Proof.
  unfold trim. split.
  - intros H. apply (f_equal (@rev Z)) in H. rewrite rev_involutive in H. simpl in H.
    apply trim_start_nil_all_ws in H. rewrite forallb_rev_eq in H.
    destruct (trim_start_head s) as [H0|[c [t [Ht Hc]]]].
    + apply trim_start_nil_all_ws, H0.
    + rewrite Ht in H. simpl in H. rewrite Hc in H. discriminate.
  - intros H. rewrite (trim_start_all_ws s H). reflexivity.
Qed.

Lemma check_pipe_segments_not_empty p segs : check_pipe_segments p segs <> Err Empty.
Proof.
  induction segs as [|s segs IH]; simpl; [discriminate|].
  destruct (negb _); [discriminate | exact IH].
Qed.

Lemma check_chain_segments_not_empty p segs : check_chain_segments p segs <> Err Empty.
Proof.
  induction segs as [|s segs IH]; simpl; [discriminate|].
  destruct (ustr_eqb _ _); [exact IH|].
  destruct (_ && _); [discriminate | exact IH].
Qed.

(** [check] answers [Empty] exactly on the lines made only of whitespace. *)
Theorem check_empty_iff_blank (p : ShellPolicy) (command : ustr) :
  check p command = Err Empty <-> forallb is_whitespace command = true.
Proof.
  split.
  - intros H. apply trim_nil_iff.
    unfold check in H. destruct (ustr_eqb (trim command) []) eqn:E.
    + apply ustr_eqb_eq, E.
    + exfalso. revert H.
      destruct (contains _ (u "|")); [apply check_pipe_segments_not_empty|].
      destruct (_ || _); [apply check_chain_segments_not_empty|].
      destruct (_ || _); [discriminate|].
      destruct (_ || _ || _); [discriminate|].
      destruct (is_allowed _ _); discriminate.
  - intros H. unfold check. apply trim_nil_iff in H. rewrite H. reflexivity.
Qed.

(** Splitting at a separator that follows [a]: the pieces of [a]'s part,
    then those of the rest. *)
Lemma split_on_sep_app (sep : Z -> bool) (a b : ustr) (x : Z) :
  sep x = true -> exists l, l <> [] /\ split_on sep (a ++ x :: b) = l ++ split_on sep b.
Proof.
  intros Hx. induction a as [|c a IH]; simpl.
  - rewrite Hx. exists [[]]. split; [discriminate | reflexivity].
  - destruct IH as [l [Hl Heq]]. rewrite Heq.
    destruct (sep c).
    + exists ([] :: l). split; [discriminate | reflexivity].
    + destruct l as [|q l]; [congruence|]. simpl.
      exists ((c :: q) :: l). split; [discriminate | reflexivity].
Qed.

Lemma split_on_not_nil (sep : Z -> bool) (s : ustr) : split_on sep s <> [].
Proof.
  destruct s as [|c s]; simpl; [discriminate|].
  destruct (sep c); [discriminate|]. destruct (split_on sep s); discriminate.
Qed.

Lemma last_app_not_nil {A} (l m : list A) (d : A) : m <> [] -> List.last (l ++ m) d = List.last m d.
Proof.
  intros Hm. induction l as [|x l IH]; simpl; [reflexivity|].
  rewrite IH. destruct l as [|y l]; simpl.
  - destruct m; [congruence | reflexivity].
  - destruct (l ++ m) eqn:E; [destruct l; simpl in E; [congruence | discriminate]| reflexivity].
Qed.

Lemma last_default_irrel {A} (l : list A) (d1 d2 : A) : l <> [] -> List.last l d1 = List.last l d2.
Proof.
  intros Hl. induction l as [|x l IH]; [congruence|].
  destruct l as [|y l]; [reflexivity|]. simpl in *. apply IH. discriminate.
Qed.

(** [is_allowed] looks at the last path component only: a command named
    through any directory is allowed exactly when its base name is. *)
Theorem is_allowed_strips_directories (p : ShellPolicy) (dir cmd : ustr) :
  is_allowed p (dir ++ 47 :: cmd) = is_allowed p cmd.
Proof.
  unfold is_allowed, basename.
  destruct (split_on_sep_app (Z.eqb 47) dir cmd 47 eq_refl) as [l [_ Heq]].
  rewrite Heq, last_app_not_nil by apply split_on_not_nil.
  rewrite (last_default_irrel _ _ cmd) by apply split_on_not_nil. reflexivity.
Qed.

Lemma ustr_eqb_sym (a b : ustr) : ustr_eqb a b = ustr_eqb b a.
Proof.
  destruct (ustr_eqb a b) eqn:E1, (ustr_eqb b a) eqn:E2; try reflexivity;
    [apply ustr_eqb_eq in E1 | apply ustr_eqb_eq in E2]; subst;
    rewrite (proj2 (ustr_eqb_eq _ _) eq_refl) in *; discriminate.
Qed.

(** After [allow(cmd)] a command is allowed when it was before or its base
    name is [cmd]; after [deny(cmd)] when it was before and its base name
    is not [cmd].  The other fields of the policy are kept. *)
Theorem allow_deny_is_allowed (p : ShellPolicy) (cmd x : ustr) :
  is_allowed (allow p cmd) x = is_allowed p x || ustr_eqb (basename x) cmd /\
  is_allowed (deny p cmd) x = is_allowed p x && negb (ustr_eqb (basename x) cmd) /\
  max_output_bytes (allow p cmd) = max_output_bytes p /\
  max_output_bytes (deny p cmd) = max_output_bytes p /\
  timeout_secs (allow p cmd) = timeout_secs p /\ timeout_secs (deny p cmd) = timeout_secs p.
Proof.
  unfold is_allowed, allow, deny; simpl. set (b := basename x). split; [|split; [|repeat split]].
  - destruct (existsb (ustr_eqb cmd) (allowed_prefixes p)) eqn:E.
    + destruct (ustr_eqb b cmd) eqn:Eb; [|rewrite orb_false_r; reflexivity].
      apply ustr_eqb_eq in Eb. subst. rewrite E. reflexivity.
    + rewrite existsb_app. simpl. rewrite orb_false_r. reflexivity.
  - induction (allowed_prefixes p) as [|y l IH]; simpl; [reflexivity|].
    destruct (ustr_eqb y cmd) eqn:Ey; simpl.
    + rewrite IH. apply ustr_eqb_eq in Ey. subst.
      destruct (ustr_eqb b cmd); simpl; rewrite ?andb_false_r; reflexivity.
    + rewrite IH. destruct (ustr_eqb b y) eqn:Eby; simpl; [|reflexivity].
      apply ustr_eqb_eq in Eby. subst. rewrite Ey. reflexivity.
Qed.

(** ** Only the first word of a plain line is checked *)

(** The sequences that send [check] to its other branches. *)
Definition special_sequences : list string :=
  ["|"; "&&"; ";"; "$("; "`"; "> /dev/"; "> /etc/"; "> /sys/"]%string.

Lemma starts_with_app (pat a b : ustr) : starts_with pat a = true -> starts_with pat (a ++ b) = true.
Proof.
  revert a; induction pat as [|x pat IH]; intros [|y a] H; simpl in *; try discriminate; auto.
  apply andb_true_iff in H as [H1 H2]. rewrite H1, IH by exact H2. reflexivity.
Qed.

Lemma contains_app_r (a b pat : ustr) : contains a pat = true -> contains (a ++ b) pat = true.
Proof.
  induction a as [|x a IH]; simpl; intros H.
  - destruct pat; [destruct b; reflexivity|]. simpl in H. discriminate.
  - apply orb_true_iff in H as [H|H].
    + pose proof (starts_with_app pat (x :: a) b H) as H'. simpl in H'. rewrite H'. reflexivity.
    + rewrite IH by exact H. apply orb_true_r.
Qed.

Lemma contains_app_l (a b pat : ustr) : contains b pat = true -> contains (a ++ b) pat = true.
Proof.
  induction a as [|x a IH]; simpl; intros H; [exact H|].
  rewrite IH by exact H. apply orb_true_r.
Qed.

Lemma trim_start_suffix (s : ustr) : exists pre, s = pre ++ trim_start s.
Proof.
  induction s as [|c s IH]; simpl; [exists []; reflexivity|].
  destruct (is_whitespace c).
  - destruct IH as [pre Hpre]. exists (c :: pre). simpl. rewrite <- Hpre. reflexivity.
  - exists []. reflexivity.
Qed.

Lemma trim_infix (s : ustr) : exists pre post, s = pre ++ trim s ++ post.
Proof.
  destruct (trim_start_suffix s) as [pre Hpre].
  destruct (trim_start_suffix (rev (trim_start s))) as [pre' Hpre'].
  exists pre, (rev pre'). unfold trim.
  apply (f_equal (@rev Z)) in Hpre'. rewrite rev_involutive, rev_app_distr in Hpre'.
  rewrite <- Hpre'. exact Hpre.
Qed.

Lemma contains_trim (s pat : ustr) : contains s pat = false -> contains (trim s) pat = false.
Proof.
  intros H. destruct (trim_infix s) as [pre [post Hs]].
  destruct (contains (trim s) pat) eqn:E; [|reflexivity].
  rewrite Hs in H. rewrite (contains_app_l pre _ pat (contains_app_r _ post pat E)) in H.
  discriminate.
Qed.

Lemma trim_start_app_not_ws (w r : ustr) :
  w <> [] -> forallb (fun x => negb (is_whitespace x)) w = true -> trim_start (w ++ r) = w ++ r.
Proof.
  destruct w as [|x w]; [congruence|]. simpl. intros _ H.
  apply andb_true_iff in H as [Hx _]. apply negb_true_iff in Hx. rewrite Hx. reflexivity.
Qed.

Lemma trim_start_app (x y : ustr) :
  trim_start (x ++ y) = if forallb is_whitespace x then trim_start y else trim_start x ++ y.
Proof.
  induction x as [|c x IH]; simpl; [reflexivity|].
  destruct (is_whitespace c); simpl; [exact IH | reflexivity].
Qed.

Lemma split_on_no_sep (sep : Z -> bool) (w : ustr) :
  forallb (fun x => negb (sep x)) w = true -> split_on sep w = [w].
Proof.
  induction w as [|x w IH]; simpl; [reflexivity|].
  intros H. apply andb_true_iff in H as [Hx Hw]. apply negb_true_iff in Hx.
  rewrite Hx, IH by exact Hw. reflexivity.
Qed.

Lemma split_on_word_sep (sep : Z -> bool) (w t : ustr) (x : Z) :
  forallb (fun y => negb (sep y)) w = true -> sep x = true ->
  split_on sep (w ++ x :: t) = w :: split_on sep t.
Proof.
  intros Hw Hx. induction w as [|y w IH]; simpl; [rewrite Hx; reflexivity|].
  simpl in Hw. apply andb_true_iff in Hw as [Hy Hw]. apply negb_true_iff in Hy.
  rewrite Hy, IH by exact Hw. reflexivity.
Qed.

(** A line [w c rest]: an allowed word [w], a whitespace character [c]
    (a newline, a space before '&', ...) and any [rest], with none of the
    [special_sequences] in the line, is accepted whatever [rest] runs:
    [check] reads only the first word, although "sh -c" executes the
    whole line. *)
Theorem check_reads_only_first_word (p : ShellPolicy) (w rest : ustr) (c : Z)
    (Hw : w <> [])
    (Hword : forallb (fun x => negb (is_whitespace x)) w = true)
    (Hc : is_whitespace c = true)
    (Hallowed : is_allowed p w = true)
    (Hplain : forallb (fun pat => negb (contains (w ++ c :: rest) (u pat))) special_sequences = true) :
  check p (w ++ c :: rest) = Ok tt.
Proof.
  set (s := w ++ c :: rest) in *.
  unfold special_sequences in Hplain. simpl in Hplain.
  repeat match goal with H : _ && _ = true |- _ => apply andb_true_iff in H as [? ?] end.
  repeat match goal with H : negb _ = true |- _ => apply negb_true_iff, contains_trim in H end.
  assert (Htrim : exists tail, trim s = w ++ tail /\ (tail = [] \/ exists t, tail = c :: t)).
  { unfold trim, s. rewrite trim_start_app_not_ws by assumption.
    rewrite rev_app_distr. cbn [rev]. rewrite <- app_assoc. cbn [app].
    rewrite trim_start_app.
    destruct (forallb is_whitespace (rev rest)) eqn:Er.
    - simpl. rewrite Hc. rewrite <- (app_nil_r (rev w)), trim_start_app_not_ws.
      + rewrite app_nil_r, rev_involutive. exists []. split; [symmetry; apply app_nil_r | left; reflexivity].
      + destruct w as [|x w'] using rev_ind; [congruence|]. rewrite rev_app_distr. discriminate.
      + rewrite forallb_rev_eq. exact Hword.
    - rewrite rev_app_distr. simpl. rewrite rev_involutive.
      exists (c :: rev (trim_start (rev rest))). split; [rewrite <- app_assoc; reflexivity | right; eauto]. }
  destruct Htrim as [tail [Ht Htail]].
  assert (Hfirst : first_token (trim s) = w).
  { rewrite Ht. unfold first_token.
    assert (Hsplit : exists ps, split_on is_whitespace (w ++ tail) = w :: ps).
    { destruct Htail as [->|[t ->]].
      - rewrite app_nil_r, split_on_no_sep by exact Hword. eauto.
      - rewrite split_on_word_sep by assumption. eauto. }
    destruct Hsplit as [ps ->]. simpl.
    destruct (ustr_eqb w []) eqn:E; [apply ustr_eqb_eq in E; congruence|]. reflexivity. }
  unfold check; cbv zeta.
  destruct (ustr_eqb (trim s) []) eqn:E.
  { apply ustr_eqb_eq in E. rewrite Ht in E. destruct w; [congruence | discriminate]. }
  simpl. rewrite H, H0, H1, H2, H3, H4, H5, H6. simpl. rewrite Hfirst, Hallowed. reflexivity.
Qed.

Lemma check_reads_only_first_word_witness :
  u "ls" <> [] /\
  check default_policy (u "ls" ++ 10 :: u "rm -rf /") = Ok tt.
Proof.
  split; [discriminate|].
  apply (check_reads_only_first_word default_policy (u "ls") (u "rm -rf /") 10);
    [discriminate | vm_compute; reflexivity ..].
Defined.

End ShellExtraProps.

Module ShellExecProps.
Import Shell ShellExec.

Lemma length_str_app (a b : string) : String.length (a +:+ b) = (String.length a + String.length b)%nat.
Proof. induction a as [|c a IH]; simpl; [reflexivity | rewrite IH; reflexivity]. Qed.

Lemma length_substring_0 (n : nat) (s : string) :
  (n <= String.length s)%nat -> String.length (substring 0 n s) = n.
Proof.
  revert n; induction s as [|c s IH]; intros [|n] H; simpl in *; try reflexivity; try lia.
  rewrite IH by lia. reflexivity.
Qed.

Lemma substring_0_app (n : nat) (a b : string) :
  String.length a = n -> substring 0 n (a +:+ b) = a.
Proof.
  revert n; induction a as [|c a IH]; intros [|n] H; simpl in *; try discriminate; try reflexivity.
  - destruct b; reflexivity.
  - rewrite IH by lia. reflexivity.
Qed.

(** A command that [check] refuses is never run: [tool_shell] answers
    "⛔ " and the text of the denial, and the world is left as it was,
    whatever the process spawner. *)
Theorem tool_shell_denied_never_spawns {W} (spawn : string -> W -> result Output string * W)
    (lossy : bytes -> string) (args : json) (p : ShellPolicy) (w : W) (e : ShellDenied)
    (Hdenied : check p (utf8_decode (string_bytes (unwrap_or "" (as_str (jidx args "command"))))) = Err e) :
  tool_shell W spawn lossy args p w = (Some (no_entry +:+ " " +:+ display e), w).
Proof. unfold tool_shell, execute_shell. rewrite Hdenied. reflexivity. Qed.

Lemma tool_shell_denied_never_spawns_witness :
  check default_policy (utf8_decode (string_bytes (unwrap_or "" (as_str (jidx (JObj []) "command")))))
    = Err Empty /\
  tool_shell unit (fun _ w => (Err "unreachable"%string, w)) (fun _ => ""%string)
    (JObj []) default_policy tt = (Some (no_entry +:+ " " +:+ "Empty command"), tt).
Proof.
  split; [vm_compute; reflexivity|].
  apply (tool_shell_denied_never_spawns (W:=unit) _ _ (JObj []) default_policy tt Empty).
  vm_compute. reflexivity.
Defined.

Lemma check_same_allowlist (p q : ShellPolicy) (c : ustr) :
  allowed_prefixes p = allowed_prefixes q -> check p c = check q c.
Proof.
  intros Hpq.
  assert (Hall : forall x, is_allowed p x = is_allowed q x) by (intros x; unfold is_allowed; rewrite Hpq; reflexivity).
  assert (Hpipe : forall l, check_pipe_segments p l = check_pipe_segments q l)
    by (induction l; simpl; [reflexivity | rewrite Hall, IHl; reflexivity]).
  assert (Hchain : forall l, check_chain_segments p l = check_chain_segments q l)
    by (induction l; simpl; [reflexivity | rewrite Hall, IHl; reflexivity]).
  unfold check. rewrite Hpipe, Hchain, Hall. reflexivity.
Qed.

(** [timeout_secs] is never read: two policies that differ only in it
    give the same [execute_shell] outcome. *)
Theorem execute_shell_ignores_timeout {W} (spawn : string -> W -> result Output string * W)
    (lossy : bytes -> string) (a : list ustr) (m t1 t2 : nat) (cmd : string) (w : W) :
  execute_shell W spawn lossy (mkShellPolicy a m t1) cmd w =
  execute_shell W spawn lossy (mkShellPolicy a m t2) cmd w.
Proof.
  unfold execute_shell. rewrite (check_same_allowlist _ (mkShellPolicy a m t2)) by reflexivity.
  reflexivity.
Qed.

(** [execute_shell] panics exactly when the command passes [check], the
    process runs and succeeds, and its stdout is longer than
    [max_output_bytes] with no character boundary at that byte. *)
Theorem execute_shell_panics_iff {W} (spawn : string -> W -> result Output string * W)
    (lossy : bytes -> string) (p : ShellPolicy) (cmd : string) (w : W) :
  fst (execute_shell W spawn lossy p cmd w) = None <->
  check p (utf8_decode (string_bytes cmd)) = Ok tt /\
  exists o w', spawn cmd w = (Ok o, w') /\ status_success o = true /\
    (max_output_bytes p < String.length (lossy (stdout o)))%nat /\
    Agent.is_char_boundary (lossy (stdout o)) (max_output_bytes p) = false.
Proof.
  unfold execute_shell. split.
  - destruct (check p _) as [[]|e]; simpl; [|discriminate].
    destruct (spawn cmd w) as [[o|e] w'] eqn:Hs; simpl; [|discriminate].
    intros H. split; [reflexivity|]. exists o, w'. split; [reflexivity|].
    destruct (status_success o); simpl in H; [|discriminate].
    destruct (Nat.ltb_spec (max_output_bytes p) (String.length (lossy (stdout o)))); [|discriminate].
    destruct (Agent.is_char_boundary _ _); [discriminate|]. auto.
  - intros [Hc [o [w' [Hs [Hok [Hlt Hb]]]]]]. rewrite Hc, Hs. simpl. rewrite Hok.
    apply Nat.ltb_lt in Hlt. rewrite Hlt, Hb. reflexivity.
Qed.

(** A successful run whose stdout [out] is longer than [max_output_bytes]
    answers the first [max_output_bytes] bytes of [out] followed by a
    notice: the answer is longer than the cap, by 29 bytes plus the
    decimal length of [out]. *)
Theorem execute_shell_truncation {W} (spawn : string -> W -> result Output string * W)
    (lossy : bytes -> string) (p : ShellPolicy) (cmd : string) (w w' : W) (o : Output) (r : string)
    (Hspawn : spawn cmd w = (Ok o, w'))
    (Hsuccess : status_success o = true)
    (Hlong : (max_output_bytes p < String.length (lossy (stdout o)))%nat)
    (Hrun : fst (execute_shell W spawn lossy p cmd w) = Some (Ok r)) :
  substring 0 (max_output_bytes p) r = substring 0 (max_output_bytes p) (lossy (stdout o)) /\
  String.length r = (max_output_bytes p + 29
                     + String.length (pretty (N.of_nat (String.length (lossy (stdout o))))))%nat.
Proof.
  revert Hrun. unfold execute_shell.
  destruct (check p _) as [[]|e]; simpl; [|discriminate].
  rewrite Hspawn. simpl. rewrite Hsuccess.
  pose proof Hlong as Hlt. apply Nat.ltb_lt in Hlt. rewrite Hlt.
  destruct (Agent.is_char_boundary _ _); [|discriminate].
  intros H. injection H as <-.
  set (out := lossy (stdout o)) in *.
  assert (Hn : String.length (substring 0 (max_output_bytes p) out) = max_output_bytes p)
    by (apply length_substring_0; lia).
  split.
  - apply substring_0_app. exact Hn.
  - rewrite !length_str_app, Hn. simpl. lia.
Qed.

Lemma execute_shell_truncation_witness :
  let spawn := fun (_ : string) (w : unit) =>
    (Ok (mkOutput true (Some 0) (string_bytes "hello world") []), w) in
  let lossy := string_of_bytes in
  let p := mkShellPolicy [u "echo"] 5 30 in
  spawn "echo hello world" tt = (Ok (mkOutput true (Some 0) (string_bytes "hello world") []), tt) /\
  (5 < String.length (lossy (string_bytes "hello world")))%nat /\
  fst (execute_shell unit spawn lossy p "echo hello world" tt)
    = Some (Ok ("hello..." +:+ nl +:+ "[truncated, 11 bytes total]")) /\
  substring 0 5 ("hello..." +:+ nl +:+ "[truncated, 11 bytes total]") = "hello" /\
  String.length ("hello..." +:+ nl +:+ "[truncated, 11 bytes total]") = 36%nat.
Proof.
  cbv zeta.
  assert (Hrun : fst (execute_shell unit
      (fun (_ : string) (w : unit) => (Ok (mkOutput true (Some 0) (string_bytes "hello world") []), w))
      string_of_bytes (mkShellPolicy [u "echo"] 5 30) "echo hello world" tt)
    = Some (Ok ("hello..." +:+ nl +:+ "[truncated, 11 bytes total]"))) by (vm_compute; reflexivity).
  pose proof (execute_shell_truncation (W:=unit) _ string_of_bytes (mkShellPolicy [u "echo"] 5 30)
    "echo hello world" tt tt (mkOutput true (Some 0) (string_bytes "hello world") [])
    _ eq_refl eq_refl ltac:(vm_compute; lia) Hrun) as [H1 H2].
  split; [reflexivity|]. split; [vm_compute; lia|]. split; [exact Hrun|].
  split; [exact H1 | exact H2].
Defined.

End ShellExecProps.

Module CipherExtraProps.
Import Cipher.

Section Primitives.
Variable cb : bytes -> bytes -> Z -> bytes.
Variable poly : bytes -> bytes -> Z.

Lemma encrypt_ok_inv (key p nonce blob : bytes) :
  encrypt cb poly key p nonce = Ok blob ->
  length key = KEY_SIZE /\
  Z.of_nat (length p) / Z.of_nat BLOCK_SIZE < MAX_BLOCKS /\
  let ct := xor_bytes p (keystream cb key nonce (length p)) in
  blob = nonce ++ ct ++ compute_tag cb poly key nonce [] ct.
Proof.
  unfold encrypt, aead_encrypt.
  destruct (Nat.eqb_spec (length key) KEY_SIZE) as [Hk|Hk]; simpl; [|discriminate].
  destruct (Z.leb_spec MAX_BLOCKS (Z.of_nat (length p) / Z.of_nat BLOCK_SIZE)) as [Hm|Hm]; [discriminate|].
  intros Hr. injection Hr as <-. repeat split; auto.
Qed.

End Primitives.

(** The layout of an [encrypt] result: the nonce, then the ciphertext
    (as long as the plaintext), then the 16-byte tag. *)
Theorem encrypt_layout (cb : bytes -> bytes -> Z -> bytes) (poly : bytes -> bytes -> Z)
    (key p nonce blob : bytes) (Henc : encrypt cb poly key p nonce = Ok blob) :
  length key = KEY_SIZE /\ firstn (length nonce) blob = nonce /\
  length blob = (length nonce + length p + TAG_SIZE)%nat.
Proof.
  destruct (encrypt_ok_inv cb poly key p nonce blob Henc) as [Hk [_ Hb]]. cbv zeta in Hb.
  subst blob. split; [exact Hk|]. split; [apply take_app_length|].
  rewrite !length_app, CipherProps.length_xor_bytes. unfold compute_tag.
  rewrite CipherProps.length_le_bytes. lia.
Qed.

Lemma encrypt_layout_witness :
  encrypt VaultProps.zero_block VaultProps.zero_mac (repeat 7 32) [104; 105] (repeat 1 12)
    = Ok (repeat 1 12 ++ [104; 105] ++ repeat 0 16) /\
  length (repeat 1 12 ++ [104; 105] ++ repeat 0 16) = 30%nat.
Proof.
  assert (H : encrypt VaultProps.zero_block VaultProps.zero_mac (repeat 7 32) [104; 105] (repeat 1 12)
    = Ok (repeat 1 12 ++ [104; 105] ++ repeat 0 16)) by (vm_compute; reflexivity).
  split; [exact H|].
  destruct (encrypt_layout _ _ _ _ _ _ H) as [_ [_ Hl]]. exact Hl.
Defined.

(** [decrypt] refuses a key that is not 32 bytes with [InvalidKeySize],
    and with a 32-byte key a blob shorter than nonce plus tag (28 bytes)
    with [DecryptionFailed]. *)
Theorem decrypt_short_inputs (cb : bytes -> bytes -> Z -> bytes) (poly : bytes -> bytes -> Z)
    (key blob : bytes) :
  (length key <> KEY_SIZE -> decrypt cb poly key blob = Err (InvalidKeySize (length key))) /\
  (length key = KEY_SIZE -> (length blob < NONCE_SIZE + TAG_SIZE)%nat ->
     decrypt cb poly key blob = Err DecryptionFailed).
Proof.
  unfold decrypt. split.
  - intros Hk. apply Nat.eqb_neq in Hk. rewrite Hk. reflexivity.
  - intros Hk Hlen. rewrite Hk, Nat.eqb_refl. simpl negb. cbv iota.
    destruct (Nat.ltb_spec (length blob) NONCE_SIZE); [reflexivity|].
    unfold aead_decrypt. rewrite length_drop.
    destruct (Nat.ltb_spec (length blob - NONCE_SIZE) TAG_SIZE); [reflexivity|].
    unfold NONCE_SIZE, TAG_SIZE in *. lia.
Qed.

(** No path of [encrypt] or [decrypt] returns [InvalidNonceSize], and
    [decrypt] never returns [EncryptionFailed]. *)
Theorem cipher_error_variants_unused (cb : bytes -> bytes -> Z -> bytes) (poly : bytes -> bytes -> Z)
    (key p nonce blob : bytes) (n : nat) :
  encrypt cb poly key p nonce <> Err (InvalidNonceSize n) /\
  decrypt cb poly key blob <> Err (InvalidNonceSize n) /\
  decrypt cb poly key blob <> Err EncryptionFailed.
Proof.
  unfold encrypt, decrypt.
  destruct (negb (length key =? KEY_SIZE)%nat); [repeat split; discriminate|].
  split; [destruct (aead_encrypt _ _ _ _ _); discriminate|].
  destruct (length blob <? NONCE_SIZE)%nat; [split; discriminate|].
  destruct (aead_decrypt _ _ _ _ _); split; discriminate.
Qed.

(** Changing the last byte of a blob that [encrypt] produced (a byte of
    the tag) makes [decrypt] fail, whatever the primitives. *)
Theorem decrypt_rejects_changed_tag_byte (cb : bytes -> bytes -> Z -> bytes)
    (poly : bytes -> bytes -> Z) (key p nonce pre : bytes) (x y : Z)
    (Hnonce : length nonce = NONCE_SIZE)
    (Henc : encrypt cb poly key p nonce = Ok (pre ++ [x]))
    (Hxy : x <> y) :
  decrypt cb poly key (pre ++ [y]) = Err DecryptionFailed.
Proof.
  destruct (encrypt_ok_inv cb poly key p nonce _ Henc) as [Hk [Hlim Hb]]. cbv zeta in Hb.
  set (ct := xor_bytes p (keystream cb key nonce (length p))) in *.
  set (tag := compute_tag cb poly key nonce [] ct) in *.
  assert (Htl : length tag = TAG_SIZE) by apply CipherProps.length_le_bytes.
  destruct (exists_last (l := tag)) as [tag' [x' Htag]];
    [intros E; rewrite E in Htl; discriminate|].
  rewrite Htag, !app_assoc in Hb. apply app_inj_tail in Hb as [Hpre <-].
  subst pre. rewrite <- !app_assoc.
  assert (Hct : length ct = length p) by apply CipherProps.length_xor_bytes.
  assert (Htl' : length tag' = 15%nat) by (rewrite Htag, length_app in Htl; simpl in Htl; unfold TAG_SIZE in Htl; lia).
  unfold decrypt. rewrite Hk, Nat.eqb_refl. simpl negb. cbv iota.
  rewrite !length_app, Hnonce.
  destruct (Nat.ltb_spec (NONCE_SIZE + (length ct + (length tag' + length [y]))) NONCE_SIZE) as [H|_];
    [unfold NONCE_SIZE in *; lia|].
  rewrite <- Hnonce, take_app_length, drop_app_length.
  unfold aead_decrypt. rewrite !length_app.
  destruct (Nat.ltb_spec (length ct + (length tag' + length [y])) TAG_SIZE) as [H|_];
    [simpl in *; unfold TAG_SIZE in *; lia|].
  replace (length ct + (length tag' + length [y]) - TAG_SIZE)%nat with (length ct)
    by (simpl; unfold TAG_SIZE; lia).
  rewrite take_app_length, drop_app_length, Hct.
  destruct (Z.leb_spec MAX_BLOCKS (Z.of_nat (length p) / Z.of_nat BLOCK_SIZE)) as [H|_]; [lia|].
  rewrite bool_decide_eq_false_2; [reflexivity|].
  fold tag. rewrite Htag. intros E. apply app_inj_tail in E as [_ E]. congruence.
Qed.

Lemma decrypt_rejects_changed_tag_byte_witness :
  length (repeat 1 12) = NONCE_SIZE /\
  encrypt VaultProps.zero_block VaultProps.zero_mac (repeat 7 32) [104; 105] (repeat 1 12)
    = Ok ((repeat 1 12 ++ [104; 105] ++ repeat 0 15) ++ [0]) /\
  (0 <> 1) /\
  decrypt VaultProps.zero_block VaultProps.zero_mac (repeat 7 32)
    ((repeat 1 12 ++ [104; 105] ++ repeat 0 15) ++ [1]) = Err DecryptionFailed.
Proof.
  split; [reflexivity|]. split; [vm_compute; reflexivity|]. split; [lia|].
  apply (decrypt_rejects_changed_tag_byte _ _ (repeat 7 32) [104; 105] (repeat 1 12)
           (repeat 1 12 ++ [104; 105] ++ repeat 0 15) 0 1);
    [reflexivity | vm_compute; reflexivity | lia].
Defined.

End CipherExtraProps.

Module KeychainProps.
Import Keychain.

Fixpoint ascii_only (s : string) : bool :=
  match s with
  | EmptyString => true
  | String c s' => Nat.ltb (nat_of_ascii c) 128 && ascii_only s'
  end.

Lemma str_app_cons (c : ascii) (a b : string) : String.append (String c a) b = String c (String.append a b).
Proof. reflexivity. Qed.

Lemma str_app_nil_r (s : string) : String.append s "" = s.
Proof. induction s as [|c s IH]; [reflexivity | rewrite str_app_cons, IH; reflexivity]. Qed.

Lemma str_app_assoc (a b c : string) : String.append a (String.append b c) = String.append (String.append a b) c.
Proof. induction a as [|x a IH]; [reflexivity | rewrite !str_app_cons, IH; reflexivity]. Qed.

Lemma str_length_app (a b : string) : String.length (String.append a b) = (String.length a + String.length b)%nat.
Proof. induction a as [|c a IH]; [reflexivity | rewrite str_app_cons; simpl; rewrite IH; reflexivity]. Qed.

Lemma ascii_only_app (a b : string) : ascii_only (String.append a b) = ascii_only a && ascii_only b.
Proof. induction a as [|c a IH]; [reflexivity | rewrite str_app_cons; simpl; rewrite IH, andb_assoc; reflexivity]. Qed.

Lemma get_none_iff (i : nat) (s : string) : String.get i s = None <-> (String.length s <= i)%nat.
Proof.
  revert i; induction s as [|c s IH]; intros [|i]; simpl; split; intros H;
    try reflexivity; try discriminate; try lia.
  - apply IH in H. lia.
  - apply IH. lia.
Qed.

Lemma ascii_only_get (s : string) (i : nat) (c : ascii) :
  ascii_only s = true -> String.get i s = Some c -> (nat_of_ascii c < 128)%nat.
Proof.
  revert i; induction s as [|x s IH]; intros [|i] Ha Hg; simpl in *; try discriminate;
    apply andb_true_iff in Ha as [Hx Hs].
  - injection Hg as <-. apply Nat.ltb_lt. exact Hx.
  - eauto.
Qed.

Lemma ascii_only_boundary (s : string) (i : nat) :
  ascii_only s = true -> (i <= String.length s)%nat -> Agent.is_char_boundary s i = true.
Proof.
  intros Ha Hi. unfold Agent.is_char_boundary.
  destruct (String.get i s) as [c|] eqn:Hg.
  - apply ascii_only_get with (i := i) (c := c) in Ha; [|exact Hg].
    apply Nat.ltb_lt in Ha. rewrite Ha. apply orb_true_r.
  - apply get_none_iff in Hg.
    replace i with (String.length s) by lia. rewrite Nat.eqb_refl. apply orb_true_r.
Qed.

Lemma substring_after_prefix (pre t : string) (i n : nat) :
  substring (String.length pre + i) n (String.append pre t) = substring i n t.
Proof. induction pre as [|c pre IH]; simpl; [reflexivity | exact IH]. Qed.

Definition hex_byte (x : Z) : string :=
  String (hex_digit (Z.shiftr x 4)) (String (hex_digit (Z.land x 15)) EmptyString).

Lemma hex_encode_cons (x : Z) (b : bytes) : hex_encode (x :: b) = String.append (hex_byte x) (hex_encode b).
Proof.
  unfold hex_encode. cbn [map]. destruct b as [|y b]; simpl; [reflexivity|]. reflexivity.
Qed.

Lemma hex_encode_length (b : bytes) : String.length (hex_encode b) = (2 * length b)%nat.
Proof.
  induction b as [|x b IH]; [reflexivity|].
  rewrite hex_encode_cons, str_length_app, IH. simpl. lia.
Qed.

(** Every byte's two digits are ASCII and parse back to the byte. *)
Definition hex_byte_ok (x : Z) : bool :=
  ascii_only (hex_byte x) &&
  match u8_from_str_radix16 (hex_byte x) with Ok y => Z.eqb y x | Err _ => false end.

Lemma hex_byte_ok_all (x : Z) : 0 <= x < 256 -> hex_byte_ok x = true.
Proof.
  intros Hx.
  assert (Hall : forallb (fun n => hex_byte_ok (Z.of_nat n)) (seq 0 256) = true)
    by (vm_compute; reflexivity).
  rewrite forallb_forall in Hall.
  rewrite <- (Z2Nat.id x) by lia. apply Hall, in_seq. lia.
Qed.

Definition in_range (b : bytes) : bool := forallb (fun x => (0 <=? x) && (x <? 256)) b.

Lemma hex_encode_ascii (b : bytes) : in_range b = true -> ascii_only (hex_encode b) = true.
Proof.
  induction b as [|x b IH]; simpl; [reflexivity|]. intros H.
  apply andb_true_iff in H as [Hx Hb]. apply andb_true_iff in Hx as [H1 H2].
  rewrite hex_encode_cons, ascii_only_app, IH by exact Hb.
  pose proof (hex_byte_ok_all x ltac:(lia)) as Hok. apply andb_true_iff in Hok as [Ha _].
  rewrite Ha. reflexivity.
Qed.

Lemma hex_pairs (b : bytes) (m : nat) (pre : string) :
  String.length pre = (2 * m)%nat -> ascii_only (String.append pre (hex_encode b)) = true ->
  in_range b = true ->
  map (fun k => hex_pair (String.append pre (hex_encode b)) (2 * k)) (seq m (length b))
  = map (fun x => Some (Ok x)) b.
Proof.
  revert m pre; induction b as [|x b IH]; intros m pre Hpre Ha Hr; [reflexivity|].
  simpl in Hr. apply andb_true_iff in Hr as [Hx Hb]. apply andb_true_iff in Hx as [H1 H2].
  pose proof (hex_byte_ok_all x ltac:(lia)) as Hok. apply andb_true_iff in Hok as [_ Hp].
  cbn [length seq map]. f_equal.
  - rewrite hex_encode_cons. unfold hex_pair.
    set (s := String.append pre (String.append (hex_byte x) (hex_encode b))).
    assert (Hs : String.length s = (2 * m + 2 + 2 * length b)%nat)
      by (unfold s; rewrite !str_length_app, hex_encode_length, Hpre; simpl; lia).
    assert (Has : ascii_only s = true) by (unfold s; rewrite <- hex_encode_cons; exact Ha).
    rewrite !ascii_only_boundary by (exact Has || lia). simpl andb.
    unfold s. rewrite <- Hpre, <- (Nat.add_0_r (String.length pre)), substring_after_prefix.
    replace (substring 0 2 (String.append (hex_byte x) (hex_encode b))) with (hex_byte x)
      by (unfold hex_byte; simpl; destruct (hex_encode b); reflexivity).
    destruct (u8_from_str_radix16 (hex_byte x)) as [y|e]; [|discriminate].
    apply Z.eqb_eq in Hp. subst y. reflexivity.
  - rewrite hex_encode_cons, str_app_assoc.
    replace (2 * S m)%nat with (2 * m + 2)%nat by lia.
    apply IH; [rewrite str_length_app, Hpre; simpl; lia | rewrite <- str_app_assoc, <- hex_encode_cons; exact Ha | exact Hb].
Qed.

Lemma collect_all_ok (b : bytes) : collect_results (map (fun x => Some (Ok x)) b) = Some (Ok b).
Proof. induction b as [|x b IH]; simpl; [reflexivity | rewrite IH; reflexivity]. Qed.

(** [hex_decode] inverts [hex_encode] on bytes: the text is twice as long
    as the data, all ASCII, and decodes to the same bytes. *)
Theorem hex_roundtrip (b : bytes) (Hb : in_range b = true) :
  String.length (hex_encode b) = (2 * length b)%nat /\
  ascii_only (hex_encode b) = true /\
  hex_decode (hex_encode b) = Some (Ok b).
Proof.
  split; [apply hex_encode_length|]. split; [apply hex_encode_ascii, Hb|].
  unfold hex_decode. rewrite hex_encode_length.
  replace (Nat.even (2 * length b)) with true by (symmetry; apply Nat.even_spec; eexists; reflexivity).
  simpl negb. cbv iota.
  replace ((2 * length b + 1) / 2)%nat with (length b) by (rewrite Nat.add_comm, Nat.mul_comm, Nat.div_add by lia; reflexivity).
  pose proof (hex_pairs b 0 "" eq_refl (hex_encode_ascii b Hb) Hb) as Hp. change (String.append "" (hex_encode b)) with (hex_encode b) in Hp. rewrite Hp.
  apply collect_all_ok.
Qed.

Lemma hex_roundtrip_witness :
  in_range [0; 15; 171; 255] = true /\
  hex_encode [0; 15; 171; 255] = "000fabff"%string /\
  hex_decode "000fabff" = Some (Ok [0; 15; 171; 255]).
Proof.
  assert (H : in_range [0; 15; 171; 255] = true) by reflexivity.
  split; [exact H|]. split; [vm_compute; reflexivity|].
  destruct (hex_roundtrip _ H) as [_ [_ Hd]]. exact Hd.
Defined.

End KeychainProps.

Module VaultExtraProps.
Import Vault VaultKeys KeychainProps.

Lemma save_ok (v : SecureVault) (d : disk) :
  write_ok d (vault_path v) = true ->
  save v d = (Ok tt, set_node (vault_path v) (File (Secrets (secrets v))) d).
Proof.
  unfold write_ok, save, fs_write. intros H.
  destruct (nodes d !! vault_path v) as [[f|]|]; try discriminate;
    destruct (write_fault d (vault_path v)) as [[e [|]]|]; try discriminate; reflexivity.
Qed.

Lemma save_fails (v : SecureVault) (d : disk) (e : string) (opened : bool) :
  nodes d !! vault_path v <> Some Dir ->
  write_fault d (vault_path v) = Some (e, opened) ->
  save v d = (Err (Io e), if opened then set_node (vault_path v) (File Unparsable) d else d).
Proof.
  unfold save, fs_write. intros Hn Hf.
  destruct (nodes d !! vault_path v) as [[f|]|]; [| congruence |];
    rewrite Hf; destruct opened; reflexivity.
Qed.

Section Primitives.
Variable cb : bytes -> bytes -> Z -> bytes.
Variable poly : bytes -> bytes -> Z.

Lemma store_ok (v : SecureVault) (name : string) (secret nonce : bytes) (d : disk) (k : bytes)
    (Hk : master_key v = Some k) (Hn : length nonce = 12%nat)
    (Hlen : Z.of_nat (length secret) < 2 ^ 38 - 64) :
  exists stored,
    store cb poly v name secret (Some nonce) d =
      (fst (save (mkVault (master_key v) (vault_path v) (<[name := stored]> (secrets v))) d),
       mkVault (master_key v) (vault_path v) (<[name := stored]> (secrets v)),
       snd (save (mkVault (master_key v) (vault_path v) (<[name := stored]> (secrets v))) d)) /\
    (12 <= length stored)%nat /\
    Cipher.aead_decrypt cb poly k (take 12 stored) (drop 12 stored) = Ok secret.
Proof.
  assert (Hlim : Z.of_nat (length secret) / Z.of_nat Cipher.BLOCK_SIZE < Cipher.MAX_BLOCKS).
  { unfold Cipher.BLOCK_SIZE, Cipher.MAX_BLOCKS. apply Z.div_lt_upper_bound; lia. }
  destruct (CipherProps.aead_roundtrip cb poly k nonce secret Hlim) as [ctt [Henc Hdec]].
  exists (nonce ++ ctt). unfold store. cbv zeta. rewrite Hk, Henc.
  split; [destruct (save _ d); reflexivity|].
  rewrite length_app, <- Hn, take_app_length, drop_app_length. split; [lia | exact Hdec].
Qed.

Lemma retrieve_ok (v : SecureVault) (name : string) (k stored secret : bytes)
    (Hk : master_key v = Some k) (Hs : secrets v !! name = Some stored)
    (Hl : (12 <= length stored)%nat)
    (Hd : Cipher.aead_decrypt cb poly k (take 12 stored) (drop 12 stored) = Ok secret)
    (Hu : utf8_valid secret = true) :
  retrieve cb poly v name = Some (Ok secret).
Proof.
  unfold retrieve. rewrite Hk. unfold bytes in *. rewrite Hs.
  destruct (Nat.ltb_spec (length stored) 12); [lia|]. rewrite Hd, Hu. reflexivity.
Qed.

End Primitives.

(** [store] on an unlocked vault, with the 12 nonce bytes the RNG gives,
    a UTF-8 secret below the cipher's limit and a vault path [fs::write]
    can write, succeeds; [retrieve] then returns the secret, other names
    are unaffected, the key and path are kept, and the file at the
    vault's path holds the new map. *)
Theorem store_then_retrieve (cb : bytes -> bytes -> Z -> bytes) (poly : bytes -> bytes -> Z)
    (v : SecureVault) (name : string) (secret nonce : bytes) (d : disk) (k : bytes)
    (Hk : master_key v = Some k) (Hn : length nonce = 12%nat)
    (Hu : utf8_valid secret = true) (Hlen : Z.of_nat (length secret) < 2 ^ 38 - 64)
    (Hw : write_ok d (vault_path v) = true) :
  exists v' d', store cb poly v name secret (Some nonce) d = (Ok tt, v', d') /\
    retrieve cb poly v' name = Some (Ok secret) /\
    (forall other, other <> name -> retrieve cb poly v' other = retrieve cb poly v other) /\
    master_key v' = master_key v /\ vault_path v' = vault_path v /\
    nodes d' !! vault_path v = Some (File (Secrets (secrets v'))).
Proof.
  destruct (store_ok cb poly v name secret nonce d k Hk Hn Hlen) as [stored [Hst [Hl Hd]]].
  rewrite (save_ok (mkVault (master_key v) (vault_path v) (<[name := stored]> (secrets v))) d Hw) in Hst.
  cbn [fst snd] in Hst.
  eexists _, _. split; [exact Hst|]. split.
  - eapply retrieve_ok; [exact Hk | simpl; apply lookup_insert_eq | exact Hl | exact Hd | exact Hu].
  - split; [|split; [reflexivity | split; [reflexivity | simpl; apply lookup_insert_eq]]].
    intros other Hne. unfold retrieve. simpl. rewrite Hk, lookup_insert_ne by congruence. reflexivity.
Qed.

Lemma store_then_retrieve_witness :
  exists v' d',
    master_key (mkVault (Some (repeat 7 32)) "vault.enc" ∅) = Some (repeat 7 32) /\
    write_ok VaultProps.empty_disk "vault.enc" = true /\
    store VaultProps.zero_block VaultProps.zero_mac (mkVault (Some (repeat 7 32)) "vault.enc" ∅)
      "api" [104; 105] (Some (repeat 1 12)) VaultProps.empty_disk = (Ok tt, v', d') /\
    retrieve VaultProps.zero_block VaultProps.zero_mac v' "api" = Some (Ok [104; 105]).
Proof.
  destruct (store_then_retrieve VaultProps.zero_block VaultProps.zero_mac
              (mkVault (Some (repeat 7 32)) "vault.enc" ∅) "api" [104; 105] (repeat 1 12)
              VaultProps.empty_disk (repeat 7 32) eq_refl eq_refl eq_refl
              ltac:(vm_compute; reflexivity) ltac:(vm_compute; reflexivity))
    as [v' [d' [H1 [H2 _]]]].
  exists v', d'. split; [reflexivity|]. split; [vm_compute; reflexivity|]. split; [exact H1 | exact H2].
Defined.

Lemma unlock_with_key (v : SecureVault) (kr : Keychain.Keyring) (d : disk) (k : bytes)
    (Hp : Keychain.platform_failure kr = None)
    (He : Keychain.entries kr !! ("argus", "master_key")%string = Some (Keychain.hex_encode k))
    (Hr : in_range k = true) (Hl : length k = 32%nat) :
  unlock v kr d = Some (load (mkVault (Some k) (vault_path v) (secrets v)) d).
Proof.
  unfold unlock, Keychain.retrieve_master_key, Keychain.entry_new. rewrite Hp. simpl.
  rewrite He. destruct (hex_roundtrip k Hr) as [_ [_ ->]]. rewrite Hl. reflexivity.
Qed.

Lemma load_written (v : SecureVault) (p : string) (m : gmap string bytes) (d : disk) :
  vault_path v = p -> read_fault d p = None ->
  load v (set_node p (File (Secrets m)) d) = (Ok tt, mkVault (master_key v) p m).
Proof.
  intros <- Hr. unfold load. cbn [nodes read_fault set_node]. rewrite lookup_insert_eq, Hr.
  reflexivity.
Qed.

(** [init] with the 32 random key bytes, a working keychain, directory
    creation and a vault path [fs::write] can write, then [unlock] of a
    fresh vault on the same path against that keychain and disk (the file
    readable), gives back the vault [init] made. *)
Theorem init_then_unlock (path : string) (key : bytes) (kr : Keychain.Keyring) (d : disk)
    (Hl : length key = 32%nat) (Hr : in_range key = true)
    (Hp : Keychain.platform_failure kr = None)
    (Hw : write_ok d path = true) (Hrd : read_fault d path = None) :
  exists v kr' d', init path (Some key) (Ok tt) kr d = (Ok v, kr', d') /\
    master_key v = Some key /\
    unlock (new path) kr' d' = Some (Ok tt, v).
Proof.
  eexists _, _, _. split.
  { unfold init, Keychain.store_master_key, Keychain.entry_new. rewrite Hp. cbv zeta.
    rewrite (save_ok (mkVault (Some key) path ∅) d Hw). reflexivity. }
  split; [reflexivity|].
  rewrite (unlock_with_key _ _ _ key); [| reflexivity | simpl; apply lookup_insert_eq | exact Hr | exact Hl].
  rewrite load_written by (reflexivity || exact Hrd). reflexivity.
Qed.

Lemma init_then_unlock_witness :
  exists v kr' d',
    init "vault.enc" (Some (repeat 7 32)) (Ok tt) (Keychain.mkKeyring ∅ None) VaultProps.empty_disk
      = (Ok v, kr', d') /\
    unlock (new "vault.enc") kr' d' = Some (Ok tt, v).
Proof.
  destruct (init_then_unlock "vault.enc" (repeat 7 32) (Keychain.mkKeyring ∅ None)
              VaultProps.empty_disk eq_refl eq_refl eq_refl
              ltac:(vm_compute; reflexivity) eq_refl) as [v [kr' [d' [H1 [_ H2]]]]].
  exists v, kr', d'. split; [exact H1 | exact H2].
Defined.

(** A secret stored in one session is read back in the next: after
    [store] on a vault whose key the keychain holds, with the file
    writable and then readable, a fresh vault on the same path, unlocked,
    retrieves it. *)
Theorem store_survives_unlock (cb : bytes -> bytes -> Z -> bytes) (poly : bytes -> bytes -> Z)
    (v : SecureVault) (name : string) (secret nonce : bytes) (d : disk) (k : bytes)
    (kr : Keychain.Keyring)
    (Hk : master_key v = Some k) (Hl : length k = 32%nat) (Hr : in_range k = true)
    (Hp : Keychain.platform_failure kr = None)
    (He : Keychain.entries kr !! ("argus", "master_key")%string = Some (Keychain.hex_encode k))
    (Hn : length nonce = 12%nat)
    (Hu : utf8_valid secret = true) (Hlen : Z.of_nat (length secret) < 2 ^ 38 - 64)
    (Hw : write_ok d (vault_path v) = true) (Hrd : read_fault d (vault_path v) = None) :
  exists v' d' v'', store cb poly v name secret (Some nonce) d = (Ok tt, v', d') /\
    unlock (new (vault_path v)) kr d' = Some (Ok tt, v'') /\
    retrieve cb poly v'' name = Some (Ok secret).
Proof.
  destruct (store_ok cb poly v name secret nonce d k Hk Hn Hlen) as [stored [Hst [Hs Hd]]].
  rewrite (save_ok (mkVault (master_key v) (vault_path v) (<[name := stored]> (secrets v))) d Hw) in Hst.
  cbn [fst snd] in Hst.
  eexists _, _, _. split; [exact Hst|].
  rewrite (unlock_with_key _ _ _ k Hp He Hr Hl). split.
  - rewrite load_written by (reflexivity || exact Hrd). reflexivity.
  - eapply retrieve_ok; [reflexivity | simpl; apply lookup_insert_eq | exact Hs | exact Hd | exact Hu].
Qed.

Lemma store_survives_unlock_witness :
  exists v' d' v'',
    store VaultProps.zero_block VaultProps.zero_mac (mkVault (Some (repeat 7 32)) "vault.enc" ∅)
      "api" [104; 105] (Some (repeat 1 12)) VaultProps.empty_disk = (Ok tt, v', d') /\
    unlock (new "vault.enc")
      (Keychain.mkKeyring (<[("argus", "master_key") := Keychain.hex_encode (repeat 7 32)]> ∅) None) d'
      = Some (Ok tt, v'') /\
    retrieve VaultProps.zero_block VaultProps.zero_mac v'' "api" = Some (Ok [104; 105]).
Proof.
  exact (store_survives_unlock VaultProps.zero_block VaultProps.zero_mac
           (mkVault (Some (repeat 7 32)) "vault.enc" ∅) "api" [104; 105] (repeat 1 12)
           VaultProps.empty_disk (repeat 7 32)
           (Keychain.mkKeyring (<[("argus", "master_key") := Keychain.hex_encode (repeat 7 32)]> ∅) None)
           eq_refl eq_refl eq_refl eq_refl ltac:(apply lookup_insert_eq)
           eq_refl eq_refl ltac:(vm_compute; reflexivity)
           ltac:(vm_compute; reflexivity) eq_refl).
Defined.

(** [unlock]'s failures: no keychain entry gives the keychain error "Item
    not found", a platform that refuses the entry gives "Platform error:
    ...", both leaving the vault as it was; a stored key that is not 32
    bytes long makes [unlock] panic. *)
Theorem unlock_failures (v : SecureVault) (kr : Keychain.Keyring) (d : disk) :
  (Keychain.platform_failure kr = None ->
   Keychain.entries kr !! ("argus", "master_key")%string = None ->
   unlock v kr d = Some (Err (Keychain "Item not found"), v)) /\
  (forall e, Keychain.platform_failure kr = Some e ->
   unlock v kr d = Some (Err (Keychain ("Platform error: " +:+ e)), v)) /\
  (forall k, Keychain.platform_failure kr = None ->
   Keychain.entries kr !! ("argus", "master_key")%string = Some (Keychain.hex_encode k) ->
   in_range k = true -> length k <> 32%nat -> unlock v kr d = None).
Proof.
  unfold unlock, Keychain.retrieve_master_key, Keychain.entry_new. split; [|split].
  - intros Hp He. rewrite Hp. simpl. rewrite He. reflexivity.
  - intros e Hp. rewrite Hp. reflexivity.
  - intros k Hp He Hr Hl. rewrite Hp. simpl. rewrite He.
    destruct (hex_roundtrip k Hr) as [_ [_ ->]].
    apply Nat.eqb_neq in Hl. rewrite Hl. reflexivity.
Qed.

(** [delete] of a missing name reports [NotFound] and changes nothing;
    of a present name, with a vault path [fs::write] can write, it
    succeeds whether or not the vault is unlocked: the name leaves
    [list_keys], [retrieve] of it then finds nothing, other names are
    unaffected, and the file holds the new map. *)
Theorem delete_removes (cb : bytes -> bytes -> Z -> bytes) (poly : bytes -> bytes -> Z)
    (v : SecureVault) (name : string) (d : disk) :
  (secrets v !! name = None -> delete v name d = (Err (NotFound name), v, d)) /\
  (is_Some (secrets v !! name) -> write_ok d (vault_path v) = true ->
   exists v' d', delete v name d = (Ok tt, v', d') /\
     ~ In name (list_keys v') /\
     (forall k, master_key v = Some k -> retrieve cb poly v' name = Some (Err (NotFound name))) /\
     (forall other, other <> name -> retrieve cb poly v' other = retrieve cb poly v other) /\
     master_key v' = master_key v /\
     nodes d' !! vault_path v = Some (File (Secrets (secrets v')))).
Proof.
  unfold delete. split.
  - intros H. rewrite H. reflexivity.
  - intros [x Hx] Hw. rewrite Hx. cbv zeta. rewrite save_ok by exact Hw.
    eexists _, _. split; [reflexivity|]. split; [|split; [|split; [|split]]].
    + rewrite VaultProps.in_list_keys. simpl. rewrite lookup_delete_eq. intros [? ?]; discriminate.
    + intros k Hk. unfold retrieve. simpl. rewrite Hk, lookup_delete_eq. reflexivity.
    + intros other Hne. unfold retrieve. simpl. rewrite lookup_delete_ne by congruence. reflexivity.
    + reflexivity.
    + simpl. apply lookup_insert_eq.
Qed.

(** [store] and [delete] change the in-memory map before writing the
    file: when [fs::write] fails with [e] (having truncated the file
    first or not), they return [Io e], yet the vault they leave already
    holds the new secret, or no longer holds the deleted name, while the
    file keeps its old content or, if truncated, no longer parses.  A
    failing RNG makes [store] fail with [Encryption] and change nothing. *)
Theorem failed_write_keeps_memory_change
    (cb : bytes -> bytes -> Z -> bytes) (poly : bytes -> bytes -> Z)
    (v : SecureVault) (name : string) (secret nonce : bytes) (d : disk) (k : bytes)
    (e : string) (opened : bool)
    (Hk : master_key v = Some k) (Hn : length nonce = 12%nat)
    (Hu : utf8_valid secret = true) (Hlen : Z.of_nat (length secret) < 2 ^ 38 - 64)
    (Hnd : nodes d !! vault_path v <> Some Dir)
    (Hf : write_fault d (vault_path v) = Some (e, opened)) :
  (exists v', store cb poly v name secret (Some nonce) d
                = (Err (Io e), v', if opened then set_node (vault_path v) (File Unparsable) d else d) /\
     retrieve cb poly v' name = Some (Ok secret)) /\
  (is_Some (secrets v !! name) ->
   exists v', delete v name d
                = (Err (Io e), v', if opened then set_node (vault_path v) (File Unparsable) d else d) /\
     ~ In name (list_keys v')) /\
  store cb poly v name secret None d = (Err Encryption, v, d).
Proof.
  split; [|split].
  - destruct (store_ok cb poly v name secret nonce d k Hk Hn Hlen) as [stored [Hst [Hs Hd]]].
    rewrite (save_fails (mkVault (master_key v) (vault_path v) (<[name := stored]> (secrets v)))
               d e opened Hnd Hf) in Hst.
    cbn [fst snd] in Hst.
    eexists. split; [exact Hst|].
    eapply retrieve_ok; [exact Hk | simpl; apply lookup_insert_eq | exact Hs | exact Hd | exact Hu].
  - intros [x Hx]. unfold delete. rewrite Hx. cbv zeta.
    rewrite (save_fails (mkVault (master_key v) (vault_path v) (base.delete name (secrets v)))
               d e opened Hnd Hf).
    eexists. split; [reflexivity|].
    rewrite VaultProps.in_list_keys. simpl. rewrite lookup_delete_eq. intros [? ?]; discriminate.
  - unfold store. rewrite Hk. reflexivity.
Qed.

(** A vault path whose parent directory does not exist. *)
Definition enoent_disk : disk :=
  mkDisk ∅ (fun _ => Some ("No such file or directory (os error 2)"%string, false)) (fun _ => None).

Lemma failed_write_keeps_memory_change_witness :
  exists v',
    store VaultProps.zero_block VaultProps.zero_mac (mkVault (Some (repeat 7 32)) "vault.enc" ∅)
      "api" [104; 105] (Some (repeat 1 12)) enoent_disk
      = (Err (Io "No such file or directory (os error 2)"), v', enoent_disk) /\
    retrieve VaultProps.zero_block VaultProps.zero_mac v' "api" = Some (Ok [104; 105]).
Proof.
  destruct (failed_write_keeps_memory_change VaultProps.zero_block VaultProps.zero_mac
              (mkVault (Some (repeat 7 32)) "vault.enc" ∅) "api" [104; 105] (repeat 1 12)
              enoent_disk (repeat 7 32) "No such file or directory (os error 2)" false
              eq_refl eq_refl eq_refl ltac:(vm_compute; reflexivity)
              ltac:(vm_compute; discriminate) eq_refl) as [H _].
  exact H.
Defined.

End VaultExtraProps.

Module MemoryExtraProps.
Import Memory MemoryProps.

Lemma like_pct_ge (q s : ustr) : like q s = true -> like (37 :: q) s = true.
Proof.
  intros H. destruct s as [|x s].
  - rewrite like_pct_nil. exact H.
  - rewrite like_pct_cons, H. reflexivity.
Qed.

Lemma like_pct_any_prefix (q : ustr) (x : Z) (s : ustr) : like (37 :: q) s = true -> like (37 :: q) (x :: s) = true.
Proof. intros H. rewrite like_pct_cons, H. apply orb_true_r. Qed.

Lemma like_prefix_self (p s : ustr) : like (p ++ [37]) (p ++ s) = true.
Proof.
  induction p as [|x p IH]; [apply like_trailing_pct|].
  simpl app. destruct (Z.eqb_spec x 37) as [->|Hx].
  - apply like_pct_any_prefix, like_pct_ge, IH.
  - simpl. apply Z.eqb_neq in Hx. rewrite Hx, IH, Z.eqb_refl, orb_true_r. reflexivity.
Qed.

(** Every content matches its own [forget]/[recall] pattern. *)
Lemma like_pattern_self (c : ustr) : like (like_pattern c) c = true.
Proof.
  unfold like_pattern. simpl app. apply like_pct_ge.
  rewrite <- (app_nil_r c) at 2. apply like_prefix_self.
Qed.

Lemma like_pct_pct (s : ustr) : like [37; 37] s = true.
Proof. apply like_pct_ge, like_trailing_pct. Qed.

Lemma filter_none {A} (f : A -> bool) (l : list A) :
  (forall x, In x l -> f x = false) -> List.filter f l = [].
Proof.
  induction l as [|x l IH]; intros H; simpl; [reflexivity|].
  rewrite H by (left; reflexivity). apply IH. intros y Hy. apply H. right. exact Hy.
Qed.

Lemma ustr_eqb_refl (c : ustr) : ustr_eqb c c = true.
Proof. apply ustr_eqb_eq. reflexivity. Qed.

(** [remember] of a content the table does not hold, then [remember] of
    the same content again: one row holds it, with the first call's id,
    type, reasoning and creation time, the larger importance and the
    second call's time; the other rows are unchanged and the second
    call reports an update. *)
Theorem remember_twice_one_row (db : Db) (mt1 mt2 c : ustr) (rs1 rs2 : option ustr)
    (i1 i2 t1 t2 : Z)
    (Hnew : existsb (fun r => ustr_eqb (content r) c) (rows db) = false) :
  let db1 := snd (remember db mt1 c rs1 i1 t1) in
  fst (remember db1 mt2 c rs2 i2 t2) = Ok msg_updated /\
  rows_with c (rows (snd (remember db1 mt2 c rs2 i2 t2)))
    = [mkRow (next_id db) mt1 c rs1 (Z.max i1 i2) t1 t2] /\
  rows_without c (rows (snd (remember db1 mt2 c rs2 i2 t2))) = rows_without c (rows db).
Proof.
  cbv zeta.
  assert (Hdb1 : snd (remember db mt1 c rs1 i1 t1)
                 = mkDb (rows db ++ [mkRow (next_id db) mt1 c rs1 i1 t1 t1]) (next_id db + 1))
    by (unfold remember; rewrite Hnew; reflexivity).
  rewrite Hdb1.
  assert (Hnone : forall r, In r (rows db) -> ustr_eqb (content r) c = false).
  { intros r Hr. destruct (ustr_eqb (content r) c) eqn:E; [|reflexivity].
    rewrite <- Hnew. symmetry. apply existsb_exists. eauto. }
  unfold remember. simpl rows.
  rewrite existsb_app. simpl existsb. rewrite ustr_eqb_refl, orb_true_r. simpl.
  rewrite map_app. simpl. rewrite ustr_eqb_refl. split; [reflexivity|].
  rewrite (map_ext_in _ (fun r => r)), map_id
    by (intros r Hr; rewrite (Hnone r Hr); reflexivity).
  unfold rows_with, rows_without. rewrite !List.filter_app. simpl.
  rewrite ustr_eqb_refl. simpl.
  split.
  - rewrite filter_none by (intros r Hr; apply Hnone, Hr). reflexivity.
  - rewrite app_nil_r. reflexivity.
Qed.

Lemma remember_twice_one_row_witness :
  existsb (fun r => ustr_eqb (content r) (u "tea")) (rows db_x) = false /\
  rows_with (u "tea") (rows (snd (remember (snd (remember db_x (u "fact") (u "tea") None 3 10))
                                   (u "pref") (u "tea") None 8 20)))
    = [mkRow 2 (u "fact") (u "tea") None 8 10 20].
Proof.
  split; [reflexivity|].
  destruct (remember_twice_one_row db_x (u "fact") (u "pref") (u "tea") None None 3 8 10 20 eq_refl)
    as [_ [H _]].
  exact H.
Defined.

Lemma like_self (p : ustr) : like p p = true.
Proof.
  induction p as [|x p IH]; [reflexivity|].
  destruct (Z.eqb_spec x 37) as [->|Hx].
  - rewrite like_pct_cons. apply orb_true_iff. right. apply like_pct_ge, IH.
  - simpl. apply Z.eqb_neq in Hx. rewrite Hx, IH, Z.eqb_refl, orb_true_r. reflexivity.
Qed.

Lemma before_nul_app_pct (c : ustr) :
  before_nul (c ++ [37]) = before_nul c ++ [37] \/ before_nul (c ++ [37]) = before_nul c.
Proof.
  induction c as [|x c IH]; [left; reflexivity|].
  simpl. destruct (x =? 0); [right; reflexivity|].
  destruct IH as [-> | ->]; [left | right]; reflexivity.
Qed.

(** Every content matches its own pattern also as SQLite reads both,
    up to their first NUL. *)
Lemma like_pattern_self_nul (c : ustr) :
  like (before_nul (like_pattern c)) (before_nul c) = true.
Proof.
  unfold like_pattern. change (before_nul ([37] ++ c ++ [37])) with (37 :: before_nul (c ++ [37])).
  destruct (before_nul_app_pct c) as [-> | ->].
  - apply (like_pattern_self (before_nul c)).
  - apply like_pct_ge, like_self.
Qed.

(** Whether the WHERE clause of [recall] holds for a row, a failing LIKE
    counting as not. *)
Definition where_holds (query mt : option ustr) (r : MemRow) : bool :=
  match recall_where query mt r with Ok b => b | Err _ => false end.

Lemma recall_where_fits (query mt : option ustr) (r : MemRow) :
  (forall q, query = Some q -> Z.of_nat (length (utf8_encode q)) <= 49998) ->
  recall_where query mt r = Ok (where_holds query mt r).
Proof.
  intros H. unfold where_holds, recall_where.
  destruct query as [q|]; [rewrite like_sql_query by (apply H; reflexivity)|]; destruct mt; reflexivity.
Qed.

Lemma recall_result_fits (db : Db) (query mt : option ustr) (limit : nat)
    (res : list MemoryRecord) :
  (forall q, query = Some q -> Z.of_nat (length (utf8_encode q)) <= 49998) ->
  recall_result db query mt limit res ->
  exists ordered : list MemRow,
    Permutation ordered (List.filter (where_holds query mt) (rows db)) /\
    Sorted importance_desc ordered /\
    res = map to_record (apply_limit (sql_limit limit) ordered).
Proof.
  intros H. unfold recall_result.
  rewrite (select_where_ok _ (where_holds query mt)) by (intros r; apply recall_where_fits, H).
  exact (fun x => x).
Qed.

Lemma recall_result_err_nil (db : Db) (query mt : option ustr) (limit : nat)
    (res : list MemoryRecord) :
  (forall r, exists e, recall_where query mt r = Err e) ->
  recall_result db query mt limit res -> res = [].
Proof.
  intros H. unfold recall_result.
  destruct (select_where (recall_where query mt) (rows db)) as [sel|e] eqn:Hs; [|exact (fun x => x)].
  rewrite (select_where_err_nil _ _ _ H Hs). intros [ordered [Hperm [_ ->]]].
  apply Permutation_sym, Permutation_nil in Hperm. subst ordered.
  destruct (sql_limit limit) as [[|n]|]; reflexivity.
Qed.

(** After [forget m], a [recall] whose query is [m] finds nothing, whatever
    the type filter and limit: every row the query would match was
    deleted, or, for a match string too long for a LIKE pattern, both
    statements fail. *)
Theorem recall_after_forget_empty (db : Db) (m : ustr) (mt : option ustr) (limit : nat)
    (res : list MemoryRecord)
    (Hres : recall_result (snd (forget db m)) (Some m) mt limit res) :
  res = [].
Proof.
  destruct (Z.le_gt_cases (Z.of_nat (length (utf8_encode m))) 49998) as [Hfit|Hlong].
  - assert (Hdb : snd (forget db m)
                  = mkDb (List.filter (fun r => negb (like (before_nul (like_pattern m))
                                                           (before_nul (content r)))) (rows db))
                         (next_id db)).
    { unfold forget. cbv zeta. rewrite (delete_where_ok _ (fun r => like (before_nul (like_pattern m))
                                                                    (before_nul (content r))));
        [reflexivity|].
      intros r. apply like_sql_query, Hfit. }
    rewrite Hdb in Hres.
    destruct (recall_result_fits _ (Some m) mt limit res ltac:(intros q [= <-]; exact Hfit) Hres)
      as [ordered [Hperm [_ ->]]].
    rewrite filter_none in Hperm.
    + apply Permutation_sym, Permutation_nil in Hperm. subst ordered.
      destruct (sql_limit limit) as [[|n]|]; reflexivity.
    + intros r Hr. cbn [rows] in Hr. apply List.filter_In in Hr as [_ Hr].
      apply negb_true_iff in Hr.
      unfold where_holds, recall_where.
      destruct mt; rewrite like_sql_query by exact Hfit; rewrite Hr; reflexivity.
  - refine (recall_result_err_nil _ _ _ _ _ _ Hres).
    intros r. unfold recall_where.
    destruct mt; rewrite like_sql_query_long by lia; eexists; reflexivity.
Qed.

Lemma recall_after_forget_empty_witness :
  recall_result (snd (forget db_x (u "x"))) (Some (u "x")) None 10
    (recall (snd (forget db_x (u "x"))) (Some (u "x")) None 10) /\
  recall (snd (forget db_x (u "x"))) (Some (u "x")) None 10 = [].
Proof.
  split; [apply RecallProps.recall_is_a_result|].
  apply (recall_after_forget_empty db_x (u "x") None 10).
  apply RecallProps.recall_is_a_result.
Defined.

(** [tool_forget] with no string "content_match" (or an empty one)
    matches with the pattern "%%": it deletes every row and reports
    their number. *)
Theorem tool_forget_without_match_deletes_all (args : json) (db : Db)
    (Hnone : unwrap_or ""%string (as_str (jidx args "content_match")) = ""%string) :
  MemoryTools.tool_forget args db = (msg_forgot (length (rows db)), mkDb [] (next_id db)).
Proof.
  unfold MemoryTools.tool_forget. rewrite Hnone.
  change (utf8_decode (string_bytes "")) with (@nil Z). unfold forget. cbv zeta.
  change (like_pattern []) with [37; 37].
  rewrite (delete_where_ok _ (fun _ => true)).
  - rewrite List.filter_true. rewrite filter_none by (intros; reflexivity). reflexivity.
  - intros r. rewrite like_sql_fits by (vm_compute; discriminate).
    change (before_nul [37; 37]) with [37; 37]. rewrite like_pct_pct. reflexivity.
Qed.

Lemma tool_forget_without_match_deletes_all_witness :
  unwrap_or ""%string (as_str (jidx (JObj []) "content_match")) = ""%string /\
  MemoryTools.tool_forget (JObj []) db_x = (msg_forgot 1, mkDb [] 2).
Proof.
  split; [reflexivity|]. exact (tool_forget_without_match_deletes_all (JObj []) db_x eq_refl).
Defined.

Lemma sql_limit_small (limit : nat) : Z.of_nat limit < 2 ^ 63 -> sql_limit limit = Some limit.
Proof.
  intros H. unfold sql_limit. rewrite Z.mod_small by lia.
  destruct (Z.ltb_spec (Z.of_nat limit) (2 ^ 63)); [|lia]. rewrite Nat2Z.id. reflexivity.
Qed.

Lemma sql_limit_negative (limit : nat) :
  2 ^ 63 <= Z.of_nat limit < 2 ^ 64 -> sql_limit limit = None.
Proof.
  intros H. unfold sql_limit. rewrite Z.mod_small by lia.
  destruct (Z.ltb_spec (Z.of_nat limit) (2 ^ 63)); [lia | reflexivity].
Qed.

(** The number of records [recall] returns, for a query of at most 49998
    UTF-8 bytes: with [n] rows the WHERE clause holds for, [min limit n]
    for a limit below 2^63, and all [n] for a limit in [2^63, 2^64),
    which [limit as i64] turns negative, i.e. no limit. *)
Theorem recall_result_length (db : Db) (query mt : option ustr) (limit : nat)
    (res : list MemoryRecord)
    (Hlim : Z.of_nat limit < 2 ^ 64)
    (Hq : forall q, query = Some q -> Z.of_nat (length (utf8_encode q)) <= 49998)
    (Hres : recall_result db query mt limit res) :
  length res =
    (if Z.of_nat limit <? 2 ^ 63
     then Nat.min limit (length (List.filter (where_holds query mt) (rows db)))
     else length (List.filter (where_holds query mt) (rows db))).
Proof.
  destruct (recall_result_fits _ _ _ _ _ Hq Hres) as [ordered [Hperm [_ ->]]].
  rewrite length_map, <- (Permutation_length Hperm).
  destruct (Z.ltb_spec (Z.of_nat limit) (2 ^ 63)) as [H|H].
  - rewrite sql_limit_small by exact H. simpl. rewrite length_take. reflexivity.
  - rewrite sql_limit_negative by lia. reflexivity.
Qed.

Lemma recall_result_length_witness :
  Z.of_nat 1 < 2 ^ 64 /\
  Z.of_nat (length (utf8_encode (u "x"))) <= 49998 /\
  recall_result db_x (Some (u "x")) None 1 (recall db_x (Some (u "x")) None 1) /\
  length (recall db_x (Some (u "x")) None 1) = 1%nat.
Proof.
  assert (Hq : forall q, Some (u "x") = Some q -> Z.of_nat (length (utf8_encode q)) <= 49998)
    by (intros q [= <-]; vm_compute; discriminate).
  split; [lia|]. split; [apply Hq; reflexivity|]. split; [apply RecallProps.recall_is_a_result|].
  rewrite (recall_result_length db_x (Some (u "x")) None 1 _ ltac:(lia) Hq
             (RecallProps.recall_is_a_result _ _ _ _)).
  vm_compute. reflexivity.
Defined.

Lemma in_recall_result (db : Db) (query mt : option ustr) (limit : nat)
    (res : list MemoryRecord) (rec : MemoryRecord) :
  recall_result db query mt limit res -> In rec res ->
  exists r, In r (rows db) /\ recall_where query mt r = Ok true /\ rec = to_record r.
Proof.
  unfold recall_result.
  destruct (select_where (recall_where query mt) (rows db)) as [sel|e] eqn:Hs; [|intros -> []].
  intros [ordered [Hperm [_ ->]]] Hin.
  apply in_map_iff in Hin as [r [<- Hr]].
  assert (Ho : In r ordered).
  { destruct (sql_limit limit); simpl in Hr; [|exact Hr].
    apply list_elem_of_In, elem_of_take in Hr as [i [Hi _]].
    apply list_elem_of_In. eapply list_elem_of_lookup_2. exact Hi. }
  apply (Permutation_in _ Hperm) in Ho.
  destruct (select_where_sub _ _ _ Hs r Ho) as [H1 H2]. eauto.
Qed.

(** What [recall] returns is what it was asked for: with a type filter,
    every record has that type; with a query holding no LIKE wildcard
    and no NUL, every record's content contains the query up to ASCII
    case. *)
Theorem recall_result_matches (db : Db) (query mt : option ustr) (limit : nat)
    (res : list MemoryRecord)
    (Hres : recall_result db query mt limit res) :
  forall rec, In rec res ->
    (forall t, mt = Some t -> rec_memory_type rec = t) /\
    (forall q, query = Some q -> no_wildcards q = true -> no_nul q = true ->
       ci_contains (rec_content rec) q = true).
Proof.
  intros rec Hin. destruct (in_recall_result _ _ _ _ _ rec Hres Hin) as [r [_ [Hw ->]]].
  split.
  - intros t ->. simpl. unfold recall_where in Hw.
    destruct query as [q|].
    + destruct (like_sql (like_pattern q) (content r)) as [b|e]; [|discriminate].
      injection Hw as Hw. apply andb_true_iff in Hw as [_ Hw]. apply ustr_eqb_eq, Hw.
    + injection Hw as Hw. apply ustr_eqb_eq, Hw.
  - intros q -> Hq Hnul. simpl.
    assert (Hl : like_sql (like_pattern q) (content r) = Ok true).
    { unfold recall_where in Hw. destruct mt; [|exact Hw].
      destruct (like_sql (like_pattern q) (content r)) as [b|e]; [|discriminate].
      injection Hw as Hw. apply andb_true_iff in Hw as [-> _]. reflexivity. }
    apply like_sql_ok in Hl.
    rewrite before_nul_like_pattern, like_pattern_ci_contains in Hl by assumption.
    apply ci_contains_before_nul, Hl.
Qed.

Lemma recall_result_matches_witness :
  recall_result db_x (Some (u "x")) (Some (u "fact")) 10 (recall db_x (Some (u "x")) (Some (u "fact")) 10) /\
  forall rec, In rec (recall db_x (Some (u "x")) (Some (u "fact")) 10) ->
    rec_memory_type rec = u "fact" /\ ci_contains (rec_content rec) (u "x") = true.
Proof.
  pose proof (RecallProps.recall_is_a_result db_x (Some (u "x")) (Some (u "fact")) 10) as H.
  split; [exact H|]. intros rec Hin.
  destruct (recall_result_matches _ _ _ _ _ H rec Hin) as [H1 H2].
  split; [apply H1; reflexivity | apply H2; reflexivity].
Defined.

(** A content just remembered under a type is found again by [recall]
    with that content as query (of at most 49998 UTF-8 bytes) and that
    type as filter, when the limit covers the table (and is below 2^63):
    the record carries the remembered type, content, importance and
    time. *)
Theorem remember_then_recall (db : Db) (mt c : ustr) (rs : option ustr) (imp now : Z)
    (limit : nat) (res : list MemoryRecord)
    (Hnew : existsb (fun r => ustr_eqb (content r) c) (rows db) = false)
    (Hfit : Z.of_nat (length (utf8_encode c)) <= 49998)
    (Hlim : (length (rows db) < limit)%nat) (Hlim' : Z.of_nat limit < 2 ^ 63)
    (Hres : recall_result (snd (remember db mt c rs imp now)) (Some c) (Some mt) limit res) :
  In (mkRecord mt c imp now) res.
Proof.
  destruct (recall_result_fits _ (Some c) (Some mt) limit res ltac:(intros q [= <-]; exact Hfit) Hres)
    as [ordered [Hperm [_ ->]]].
  rewrite sql_limit_small by exact Hlim'.
  unfold remember in Hperm. rewrite Hnew in Hperm. cbn [snd rows] in Hperm.
  set (r := mkRow (next_id db) mt c rs imp now now) in *.
  assert (Hin : In r ordered).
  { apply (Permutation_in _ (Permutation_sym Hperm)), List.filter_In. split.
    - apply in_or_app. right. left. reflexivity.
    - unfold where_holds, recall_where. rewrite like_sql_query by exact Hfit.
      unfold r. cbn [content memory_type]. rewrite like_pattern_self_nul, ustr_eqb_refl. reflexivity. }
  apply in_map_iff. exists r. split; [reflexivity|].
  unfold apply_limit. rewrite take_ge; [exact Hin|].
  rewrite (Permutation_length Hperm).
  pose proof (List.filter_length_le (where_holds (Some c) (Some mt)) (rows db ++ [r])) as Hle.
  rewrite length_app in Hle. simpl in Hle. lia.
Qed.

Lemma remember_then_recall_witness :
  existsb (fun r => ustr_eqb (content r) (u "tea")) (rows db_x) = false /\
  Z.of_nat (length (utf8_encode (u "tea"))) <= 49998 /\
  (length (rows db_x) < 10)%nat /\ Z.of_nat 10 < 2 ^ 63 /\
  In (mkRecord (u "pref") (u "tea") 7 50)
     (recall (snd (remember db_x (u "pref") (u "tea") None 7 50)) (Some (u "tea")) (Some (u "pref")) 10).
Proof.
  assert (Hfit : Z.of_nat (length (utf8_encode (u "tea"))) <= 49998) by (vm_compute; discriminate).
  split; [reflexivity|]. split; [exact Hfit|]. split; [simpl; lia|]. split; [lia|].
  apply (remember_then_recall db_x (u "pref") (u "tea") None 7 50 10);
    [reflexivity | exact Hfit | simpl; lia | lia |].
  apply RecallProps.recall_is_a_result.
Defined.

(** A [recall] whose query has more than 49998 UTF-8 bytes returns no
    record, whatever the table, type filter and limit: its LIKE pattern
    is above SQLite's limit, the statement fails, and [recall] drops the
    failed row. *)
Theorem recall_long_query_empty (db : Db) (q : ustr) (mt : option ustr) (limit : nat)
    (res : list MemoryRecord)
    (Hlong : 49999 <= Z.of_nat (length (utf8_encode q)))
    (Hres : recall_result db (Some q) mt limit res) :
  res = [].
Proof.
  apply (recall_result_err_nil db (Some q) mt limit res); [|exact Hres].
  intros r. unfold recall_where.
  destruct mt; rewrite like_sql_query_long by exact Hlong; eexists; reflexivity.
Qed.

(** 25000 copies of U+00E9, 50000 UTF-8 bytes. *)
Definition long_query : ustr := repeat 233 (Z.to_nat 25000).

Lemma recall_long_query_empty_witness :
  49999 <= Z.of_nat (length (utf8_encode long_query)) /\
  recall_result db_x (Some long_query) None 10 (recall db_x (Some long_query) None 10) /\
  recall db_x (Some long_query) None 10 = [].
Proof.
  assert (H : 49999 <= Z.of_nat (length (utf8_encode long_query))) by (vm_compute; discriminate).
  split; [exact H|]. split; [apply RecallProps.recall_is_a_result|].
  apply (recall_long_query_empty db_x long_query None 10 _ H).
  apply RecallProps.recall_is_a_result.
Defined.

End MemoryExtraProps.

Module AgentExtraProps.
Import Agent.

Definition is_tool_event (e : AgentEvent) : bool :=
  match e with ToolCall _ _ | ToolResult _ _ => true | _ => false end.

(** ** At most [MAX_TOOL_ROUNDS] requests per turn

    The world is paired with a counter that the endpoint increments and
    the tools leave alone. *)
Section Requests.
Context {W : Type}.
Variable endpoint : string -> string -> json -> W -> api_outcome * W.
Variable run_builtin : string -> json -> W -> string * W.
Variable server_call : string -> string -> json -> W -> result string string * W.
Variable from_str : string -> option json.
Variable to_string : json -> string.
Variable builtin_description : string -> string.
Variable builtin_parameters : string -> json.
Variable SYSTEM_PROMPT : string.

Definition counted_endpoint (url auth : string) (body : json) (nw : nat * W) : api_outcome * (nat * W) :=
  let (o, w') := endpoint url auth body (snd nw) in (o, (S (fst nw), w')).
Definition counted_builtin (name : string) (args : json) (nw : nat * W) : string * (nat * W) :=
  let (s, w') := run_builtin name args (snd nw) in (s, (fst nw, w')).
Definition counted_server (srv name : string) (args : json) (nw : nat * W)
    : result string string * (nat * W) :=
  let (r, w') := server_call srv name args (snd nw) in (r, (fst nw, w')).

Definition requests_bound {A} (k : nat) (c : M (nat * W) A) : Prop :=
  forall n w evs, (fst (snd (fst (c (n, w) evs))) <= n + k)%nat.

Lemma rb_bind {A B} k1 k2 (c : M (nat * W) A) (f : A -> M (nat * W) B) :
  requests_bound k1 c -> (forall a, requests_bound k2 (f a)) ->
  requests_bound (k1 + k2) (bind (nat * W) c f).
Proof.
  intros Hc Hf n w evs. specialize (Hc n w evs). unfold bind.
  destruct (c (n, w) evs) as [[s [n1 w1]] evs1]. simpl in Hc.
  destruct s as [a|r|]; simpl; [|lia|lia].
  specialize (Hf a n1 w1 evs1). lia.
Qed.

Lemma rb_mono {A} k k' (c : M (nat * W) A) : (k <= k')%nat -> requests_bound k c -> requests_bound k' c.
Proof. intros Hk Hc n w evs. specialize (Hc n w evs). lia. Qed.

Lemma rb_ret {A} (a : A) : requests_bound 0 (ret (nat * W) a).
Proof. intros n w evs. simpl. lia. Qed.

Lemma rb_emit e : requests_bound 0 (emit (nat * W) e).
Proof. intros n w evs. simpl. lia. Qed.

Lemma rb_exit {A} r : requests_bound 0 (@exit (nat * W) A r).
Proof. intros n w evs. simpl. lia. Qed.

Lemma rb_panic {A} : requests_bound 0 (@panic (nat * W) A).
Proof. intros n w evs. simpl. lia. Qed.

Lemma rb_dispatch mcp name args :
  requests_bound 0 (dispatch (nat * W) counted_builtin counted_server mcp name args).
Proof.
  unfold dispatch. apply (rb_bind 0 0).
  - intros n w evs. unfold lift, execute_builtin.
    destruct (existsb (String.eqb name) builtin_names); unfold counted_builtin; cbn [fst snd];
      [destruct (run_builtin name args w)|]; simpl; lia.
  - intros [out|]; [apply rb_ret|]. apply (rb_bind 0 0).
    + intros n w evs. unfold lift, mcp_call_tool.
      destruct (List.find _ (Mcp.servers mcp)) as [s|]; unfold counted_server; cbn [fst snd];
        [destruct (server_call (Mcp.srv_name s) name args w)|]; simpl; lia.
    + intros [out|e]; apply rb_ret.
Qed.

Lemma rb_run_tool_call mcp msgs tc :
  requests_bound 0 (run_tool_call (nat * W) counted_builtin counted_server from_str to_string mcp msgs tc).
Proof.
  unfold run_tool_call. cbv zeta. apply (rb_bind 0 0); [apply rb_emit|]. intros _.
  apply (rb_bind 0 0); [apply rb_dispatch|]. intros result.
  destruct (result_preview result); [|apply rb_panic].
  apply (rb_bind 0 0); [apply rb_emit | intros _; apply rb_ret].
Qed.

Lemma rb_run_tool_calls mcp calls : forall msgs,
  requests_bound 0 (run_tool_calls (nat * W) counted_builtin counted_server from_str to_string mcp msgs calls).
Proof.
  induction calls as [|tc calls IH]; intros msgs; simpl; [apply rb_ret|].
  apply (rb_bind 0 0); [apply rb_run_tool_call | intros m; apply IH].
Qed.

Lemma rb_round config mcp schemas msgs :
  requests_bound 1 (round (nat * W) counted_endpoint counted_builtin counted_server from_str to_string
                      config mcp schemas msgs).
Proof.
  unfold round. apply (rb_bind 1 0).
  - intros n w evs. unfold lift, counted_endpoint. simpl.
    destruct (endpoint _ _ _ w). simpl. lia.
  - intros [e|e|j]; [apply rb_exit | apply rb_exit|].
    destruct (jget j "error") as [err|].
    + cbv zeta. apply (rb_bind 0 0); [apply rb_emit | intros _; apply rb_exit].
    + cbv zeta. destruct (match jget _ "tool_calls" with Some tc => as_array tc | None => None end)
        as [[|c cs]|].
      * apply (rb_bind 0 0); [apply rb_emit | intros _; apply rb_exit].
      * apply rb_run_tool_calls.
      * apply (rb_bind 0 0); [apply rb_emit | intros _; apply rb_exit].
Qed.

Lemma rb_rounds k config mcp schemas : forall msgs,
  requests_bound k (rounds (nat * W) counted_endpoint counted_builtin counted_server from_str to_string
                      k config mcp schemas msgs).
Proof.
  induction k as [|k IH]; intros msgs; simpl; [apply rb_ret|].
  apply (rb_bind 1 k); [apply rb_round | intros m; apply IH].
Qed.

(** Whatever the model answers and the tools do, one call of
    [run_agent_turn] sends at most [MAX_TOOL_ROUNDS] (10) requests to
    the chat-completion endpoint. *)
Theorem turn_requests_at_most_max_rounds (config : AgentConfig) (user_message : string)
    (mcp : Mcp.McpClient) (w : W) :
  (fst (snd (fst (run_agent_turn (nat * W) counted_endpoint counted_builtin counted_server
                    from_str to_string builtin_description builtin_parameters SYSTEM_PROMPT
                    config user_message mcp (0%nat, w)))) <= MAX_TOOL_ROUNDS)%nat.
Proof.
  assert (Ht : requests_bound MAX_TOOL_ROUNDS
                 (turn (nat * W) counted_endpoint counted_builtin counted_server from_str to_string
                    builtin_description builtin_parameters SYSTEM_PROMPT config user_message mcp)).
  { unfold turn. cbv zeta.
    apply (rb_mono (0 + (MAX_TOOL_ROUNDS + (0 + 0)))); [lia|].
    apply rb_bind; [apply rb_emit|]. intros _.
    apply rb_bind; [apply rb_rounds|]. intros _.
    apply rb_bind; [apply rb_emit | intros _; apply rb_exit]. }
  specialize (Ht 0%nat w []). unfold run_agent_turn.
  destruct (turn _ _ _ _ _ _ _ _ _ config user_message mcp (0%nat, w) []) as [[[] w'] evs];
    simpl in *; lia.
Qed.

End Requests.


(** ** The order of the events of a turn *)
Section Events.
Context {W : Type}.
Variable endpoint : string -> string -> json -> W -> api_outcome * W.
Variable run_builtin : string -> json -> W -> string * W.
Variable server_call : string -> string -> json -> W -> result string string * W.
Variable from_str : string -> option json.
Variable to_string : json -> string.
Variable builtin_description : string -> string.
Variable builtin_parameters : string -> json.
Variable SYSTEM_PROMPT : string.

(** The events a computation adds, given how it ends: tool events, then
    for [Ok t] a [Response t], for [Err e] an [Error e] or nothing. *)
Definition shape {A} (s : step A) (new : list AgentEvent) : Prop :=
  exists mid, forallb is_tool_event mid = true /\
  match s with
  | Exit (Ok t) => new = mid ++ [Response t]
  | Exit (Err e) => new = mid ++ [Error e] \/ new = mid
  | _ => new = mid
  end.

Definition well_ordered {A} (c : M W A) : Prop :=
  forall w evs, exists new, snd (c w evs) = evs ++ new /\ shape (fst (fst (c w evs))) new.

Lemma shape_prepend {A} (s : step A) (pre new : list AgentEvent) :
  forallb is_tool_event pre = true -> shape s new -> shape s (pre ++ new).
Proof.
  intros Hpre [mid [Hmid Hs]]. exists (pre ++ mid). rewrite forallb_app, Hpre, Hmid.
  split; [reflexivity|].
  destruct s as [a|[t|e]|]; rewrite ?Hs, ?app_assoc; auto.
  destruct Hs as [->| ->]; rewrite ?app_assoc; auto.
Qed.

Lemma wo_bind {A B} (c : M W A) (f : A -> M W B) :
  well_ordered c -> (forall a, well_ordered (f a)) -> well_ordered (bind W c f).
Proof.
  intros Hc Hf w evs. specialize (Hc w evs). unfold bind.
  destruct (c w evs) as [[s w1] evs1]. simpl in Hc. destruct Hc as [new1 [-> Hs1]].
  destruct s as [a|r|]; simpl; [|exists new1; split; [reflexivity | exact Hs1]..].
  destruct Hs1 as [mid [Hmid ->]].
  destruct (Hf a w1 (evs ++ mid)) as [new2 [H2 Hs2]].
  destruct (f a w1 (evs ++ mid)) as [[s2 w2] evs2]. simpl in *.
  exists (mid ++ new2). split; [rewrite H2, app_assoc; reflexivity|].
  apply shape_prepend; assumption.
Qed.

Lemma wo_ret {A} (a : A) : well_ordered (ret W a).
Proof. intros w evs. exists []. rewrite app_nil_r. split; [reflexivity|]. exists []. split; simpl; auto. Qed.

Lemma wo_tool_event e : is_tool_event e = true -> well_ordered (emit W e).
Proof.
  intros He w evs. exists [e]. split; [reflexivity|]. exists [e]. simpl. rewrite He. split; auto.
Qed.

Lemma wo_exit_err {A} e : well_ordered (@exit W A (Err e)).
Proof. intros w evs. exists []. rewrite app_nil_r. split; [reflexivity|]. exists []. split; simpl; auto. Qed.

Lemma wo_panic {A} : well_ordered (@panic W A).
Proof. intros w evs. exists []. rewrite app_nil_r. split; [reflexivity|]. exists []. split; simpl; auto. Qed.

Lemma wo_lift {A} (f : W -> A * W) : well_ordered (lift W f).
Proof.
  intros w evs. unfold lift. destruct (f w). exists []. rewrite app_nil_r.
  split; [reflexivity|]. exists []. split; simpl; auto.
Qed.

Lemma wo_respond {A} t : well_ordered (bind W (emit W (Response t)) (fun _ => @exit W A (Ok t))).
Proof. intros w evs. exists [Response t]. split; [reflexivity|]. exists []. split; simpl; auto. Qed.

Lemma wo_error {A} t : well_ordered (bind W (emit W (Error t)) (fun _ => @exit W A (Err t))).
Proof. intros w evs. exists [Error t]. split; [reflexivity|]. exists []. split; simpl; auto. Qed.

Lemma wo_dispatch mcp name args : well_ordered (dispatch W run_builtin server_call mcp name args).
Proof.
  unfold dispatch. apply wo_bind; [apply wo_lift|]. intros [out|]; [apply wo_ret|].
  apply wo_bind; [apply wo_lift|]. intros [out|e]; apply wo_ret.
Qed.

Lemma wo_run_tool_calls mcp calls : forall msgs,
  well_ordered (run_tool_calls W run_builtin server_call from_str to_string mcp msgs calls).
Proof.
  induction calls as [|tc calls IH]; intros msgs; simpl; [apply wo_ret|].
  apply wo_bind; [|intros m; apply IH].
  unfold run_tool_call. cbv zeta.
  apply wo_bind; [apply wo_tool_event; reflexivity|]. intros _.
  apply wo_bind; [apply wo_dispatch|]. intros result.
  destruct (result_preview result); [|apply wo_panic].
  apply wo_bind; [apply wo_tool_event; reflexivity | intros _; apply wo_ret].
Qed.

Lemma wo_rounds k config mcp schemas : forall msgs,
  well_ordered (rounds W endpoint run_builtin server_call from_str to_string k config mcp schemas msgs).
Proof.
  induction k as [|k IH]; intros msgs; simpl; [apply wo_ret|].
  apply wo_bind; [|intros m; apply IH].
  unfold round. apply wo_bind; [apply wo_lift|].
  intros [e|e|j]; [apply wo_exit_err | apply wo_exit_err|].
  destruct (jget j "error") as [err|]; cbv zeta; [apply wo_error|].
  destruct (match jget _ "tool_calls" with Some tc => as_array tc | None => None end) as [[|c cs]|];
    [apply wo_respond | apply wo_run_tool_calls | apply wo_respond].
Qed.

(** Whatever the model answers and the tools do, the events of a turn
    are [Thinking], then tool events only, then at most one terminal
    event: a turn that returns [Ok t] ends with [Response t]; one that
    returns [Err e] ends with [Error e] or with no terminal event; one
    that panics has none. *)
Theorem turn_event_order (config : AgentConfig) (user_message : string) (mcp : Mcp.McpClient) (w : W) :
  let '(r, _, evs) := run_agent_turn W endpoint run_builtin server_call from_str to_string
                        builtin_description builtin_parameters SYSTEM_PROMPT config user_message mcp w in
  exists mid, forallb is_tool_event mid = true /\
  match r with
  | Some (Ok t) => evs = Thinking :: mid ++ [Response t]
  | Some (Err e) => evs = Thinking :: mid ++ [Error e] \/ evs = Thinking :: mid
  | None => evs = Thinking :: mid
  end.
Proof.
  assert (Hrest : forall schemas msgs,
    well_ordered (bind W (rounds W endpoint run_builtin server_call from_str to_string
                            MAX_TOOL_ROUNDS config mcp schemas msgs)
                    (fun _ => bind W (emit W (Response max_rounds_message))
                                (fun _ => @exit W unit (Ok max_rounds_message))))).
  { intros schemas msgs. apply wo_bind; [apply wo_rounds | intros _; apply wo_respond]. }
  unfold run_agent_turn, turn. cbv zeta. unfold bind at 1, emit at 1.
  match goal with |- context [bind W (rounds ?a ?b ?c ?d ?e ?f ?g ?h ?i ?j ?k) ?l w ?ev] =>
    destruct (Hrest j k w ev) as [new [Hevs Hs]];
    destruct (bind W (rounds a b c d e f g h i j k) l w ev) as [[s w'] evs']
  end.
  simpl in Hevs, Hs. subst evs'. destruct Hs as [mid [Hmid Hs]].
  destruct s as [a|[t|e]|]; cbn iota beta; exists mid; split; try exact Hmid;
    [subst; reflexivity | subst; reflexivity | destruct Hs as [-> | ->]; auto | subst; reflexivity].
Qed.

(** ** The tool catalog *)

Definition catalog_names (mcp : Mcp.McpClient) : list string :=
  map (fun schema => unwrap_or "" (as_str (jidx (jidx schema "function") "name")))
      (build_catalog builtin_description builtin_parameters mcp).

Lemma builtin_schema_name n :
  unwrap_or "" (as_str (jidx (jidx (JObj [("type", JStr "function");
      ("function", JObj [("name", JStr n); ("description", JStr (builtin_description n));
                         ("parameters", builtin_parameters n)])]) "function") "name")) = n.
Proof. reflexivity. Qed.

Lemma map_filter_map {A B} (f : A -> B) (g : B -> A) (p : B -> bool) (ns : list A) :
  (forall n, g (f n) = n) -> map g (List.filter p (map f ns)) = List.filter (fun n => p (f n)) ns.
Proof.
  intros Hgf. induction ns as [|n ns IH]; [reflexivity|]. cbn [map List.filter].
  destruct (p (f n)); cbn [map]; rewrite ?Hgf, IH; reflexivity.
Qed.

(** The catalog lists the MCP tools' names in server order, then the
    built-in names that no MCP tool takes; its names are all distinct
    exactly when the MCP tools' names are, since a name two servers
    advertise is listed twice. *)
Theorem catalog_names_spec (mcp : Mcp.McpClient) :
  catalog_names mcp =
    map Mcp.name (Mcp.all_tools mcp) ++
    List.filter (fun n => negb (existsb (String.eqb n) (map Mcp.name (Mcp.all_tools mcp)))) builtin_names /\
  (NoDup (catalog_names mcp) <-> NoDup (map Mcp.name (Mcp.all_tools mcp))).
Proof.
  assert (Hspec : catalog_names mcp =
    map Mcp.name (Mcp.all_tools mcp) ++
    List.filter (fun n => negb (existsb (String.eqb n) (map Mcp.name (Mcp.all_tools mcp)))) builtin_names).
  { unfold catalog_names, build_catalog. cbv zeta. rewrite map_app, map_map. f_equal.
    unfold builtin_tool_schemas. rewrite map_filter_map by (intros n; reflexivity).
    apply filter_ext_in. intros n Hn.
    repeat (destruct Hn as [<- | Hn]; [reflexivity|]). destruct Hn. }
  split; [exact Hspec|]. rewrite Hspec.
  set (ms := map Mcp.name (Mcp.all_tools mcp)).
  assert (Hb : NoDup builtin_names) by (unfold builtin_names; apply (bool_decide_unpack _); vm_compute; reflexivity).
  split.
  - intros H. apply NoDup_app in H as [H _]. exact H.
  - intros H. apply NoDup_app. split; [exact H|]. split.
    + intros x Hx Hy. apply list_elem_of_In in Hx, Hy. apply List.filter_In in Hy as [_ Hy]. apply negb_true_iff in Hy.
      assert (existsb (String.eqb x) ms = true) as Hin
        by (apply existsb_exists; exists x; split; [exact Hx | apply String.eqb_refl]).
      congruence.
    + apply NoDup_ListNoDup, List.NoDup_filter, NoDup_ListNoDup, Hb.
Qed.

End Events.

(** ** Routing of non-built-in tool names *)
Section Routing.
Context {W : Type}.
Variable run_builtin : string -> json -> W -> string * W.
Variable server_call : string -> string -> json -> W -> result string string * W.

Lemma find_first {A} (f : A -> bool) (pre : list A) (x : A) (post : list A) :
  Forall (fun y => f y = false) pre -> f x = true -> List.find f (pre ++ x :: post) = Some x.
Proof.
  intros Hpre Hx. induction Hpre as [|y pre Hy _ IH]; simpl; [rewrite Hx | rewrite Hy]; auto.
Qed.

(** A name that is not a built-in goes to the first MCP server that
    advertises it, and to no other; its output comes back as is, while an
    error of that server is replaced by "Unknown tool: <name>", so the
    server's own message is dropped. *)
Theorem dispatch_routes_to_first_server (mcp : Mcp.McpClient) (pre : list Mcp.McpServer)
    (s : Mcp.McpServer) (post : list Mcp.McpServer) (name : string) (args : json)
    (w : W) (evs : list AgentEvent) :
  Mcp.servers mcp = pre ++ s :: post ->
  existsb (String.eqb name) builtin_names = false ->
  Forall (fun s' => existsb (fun t => String.eqb (Mcp.name t) name) (Mcp.tools s') = false) pre ->
  existsb (fun t => String.eqb (Mcp.name t) name) (Mcp.tools s) = true ->
  dispatch W run_builtin server_call mcp name args w evs =
    let '(r, w') := server_call (Mcp.srv_name s) name args w in
    (Next (match r with Ok out => out | Err _ => "Unknown tool: " +:+ name end), w', evs).
Proof.
  intros Hmcp Hb Hpre Hs. unfold dispatch, bind, lift, execute_builtin. rewrite Hb.
  unfold mcp_call_tool. rewrite Hmcp, (find_first _ pre s post Hpre Hs).
  destruct (server_call (Mcp.srv_name s) name args w) as [[out|e] w']; reflexivity.
Qed.

End Routing.

Definition lookup_tool : Mcp.McpTool := Mcp.mkTool "lookup" None (JObj []) "b".

Lemma dispatch_routes_to_first_server_witness :
  dispatch unit (fun _ _ w => (""%string, w)) (fun srv _ _ w => (Ok srv, w))
    (Mcp.mkClient [Mcp.mkServer "a" []; Mcp.mkServer "b" [lookup_tool]]) "lookup" (JObj []) tt []
  = (Next "b"%string, tt, []).
Proof.
  apply (dispatch_routes_to_first_server (W := unit) (fun _ _ w => (""%string, w)) (fun srv _ _ w => (Ok srv, w))
           _ [Mcp.mkServer "a" []] (Mcp.mkServer "b" [lookup_tool]) []);
    [reflexivity | reflexivity | repeat constructor | reflexivity].
Defined.

End AgentExtraProps.
